(** * Project3: position ledger, system monitor, risk calculator and
      agent supervisor

    A shallow embedding of [src/core/position_manager.py],
    [src/core/monitoring.py], [src/core/risk_metrics.py] and
    [src/core/master_agent.py] (with [src/agents/base.py]), and the
    properties of the specification settled against it.

    Conventions of the embedding.
    - A Python [float] is an IEEE 754 binary64 value: Rocq's primitive
      [float], with the same rounding, comparisons, NaN and signed zero.
    - A Python [dict] keeps insertion order: it is an association list with
      no repeated key (module [PyDict]), and its item iterator fails when the
      size of the dictionary changed since the iterator was made.
    - Every method takes the object ([self]) and returns the new object
      beside its result; objects reachable from one place only are values.
    - [async] methods that never suspend before they return are functions;
      a task handed to the event loop is an entry of the loop's task list.
    - Calls to [logger] do not touch the state of the ledger and of the
      monitor and are left out there; the supervisor's recovery returns its
      log records, since the specification speaks of them.
    - [except Exception] catches an [Exception] and nothing else: awaited
      code of agents and callbacks can also raise an exception that is
      none (the [CancelledError] of a cancelled task), which goes on to
      the caller. *)

From Stdlib Require Import String Ascii List Bool Arith ZArith Lia.
From Stdlib Require Import Floats.
From Stdlib Require Uint63.
Import ListNotations.

Set Implicit Arguments.
(* Decimal literals denote the nearest binary64 value, as in Python. *)
Set Warnings "-inexact-float".

(* ================================================================== *)
(** * Python dictionaries with string keys *)

Module PyDict.

Definition dict (V : Type) : Type := list (string * V).

Section Operations.
Context {V : Type}.

(** [d.get(k)]: the value bound to [k], [None] when there is none. *)
Fixpoint get (d : dict V) (k : string) : option V :=
  match d with
  | [] => None
  | (k', v) :: rest => if String.eqb k k' then Some v else get rest k
  end.

(** [k in d]. *)
Definition contains (d : dict V) (k : string) : bool :=
  match get d k with Some _ => true | None => false end.

(** [d[k] = v]: a bound key keeps its place, a new key goes last. *)
Fixpoint setitem (d : dict V) (k : string) (v : V) : dict V :=
  match d with
  | [] => [(k, v)]
  | (k', v') :: rest =>
      if String.eqb k k' then (k, v) :: rest
      else (k', v') :: setitem rest k v
  end.

(** [del d[k]], for a key that is bound. *)
Fixpoint delitem (d : dict V) (k : string) : dict V :=
  match d with
  | [] => []
  | (k', v') :: rest =>
      if String.eqb k k' then rest else (k', v') :: delitem rest k
  end.

(** [len(d)]. *)
Definition len (d : dict V) : nat := length d.

Definition keys (d : dict V) : list string := map fst d.
Definition values (d : dict V) : list V := map snd d.

(** The iterator of [d.items()]: the size the dictionary had when the
    iterator was made, and the index of the next entry. *)
Record dictiter : Type := { di_used : nat; di_pos : nat }.

Definition items (d : dict V) : dictiter :=
  {| di_used := len d; di_pos := 0 |}.

Inductive iternext_result : Type :=
| Item (k : string) (v : V) (it : dictiter)
| StopIteration
| RuntimeError_changed_size.

(** One [next()] on the iterator, over the dictionary as it is now. The
    size test comes first, as in CPython: a deletion made by the body of
    the loop makes the following [next()] raise
    [RuntimeError: dictionary changed size during iteration], also when
    no entry was left to visit. *)
Definition iternext (d : dict V) (it : dictiter) : iternext_result :=
  if negb (Nat.eqb (di_used it) (len d)) then RuntimeError_changed_size
  else
    match nth_error d (di_pos it) with
    | Some (k, v) =>
        Item k v {| di_used := di_used it; di_pos := S (di_pos it) |}
    | None => StopIteration
    end.
End Operations.

Arguments iternext_result : clear implicits.

(** The same dictionary with [f] applied to every value. *)
Definition map_values {V W : Type} (f : V -> W) (d : dict V) : dict W :=
  map (fun kv => (fst kv, f (snd kv))) d.

End PyDict.

(* ================================================================== *)
(** * The position ledger: [src/core/position_manager.py] *)

Module PositionLedger.
Import PyDict.
Local Open Scope float_scope.
Local Open Scope string_scope.

(** ** class Position *)

Record Position : Type := mkPosition {
  symbol : string;
  size : float;
  entry_price : float;
  direction : string;            (* "long" or "short" *)
  stop_loss : option float;
  take_profit : option float;
  entry_time : Z;                (* the clock's reading at creation *)
  pnl : float;
  status : string
}.

(** [Position.__init__]; [now] is what [datetime.now()] returns. *)
Definition Position_init (now : Z) (symbol : string)
    (size entry_price : float) (direction : string)
    (stop_loss take_profit : option float) : Position :=
  {| symbol := symbol; size := size; entry_price := entry_price;
     direction := direction; stop_loss := stop_loss;
     take_profit := take_profit; entry_time := now;
     pnl := 0; status := "open" |}.

Definition set_pnl (self : Position) (v : float) : Position :=
  {| symbol := symbol self; size := size self;
     entry_price := entry_price self; direction := direction self;
     stop_loss := stop_loss self; take_profit := take_profit self;
     entry_time := entry_time self; pnl := v; status := status self |}.

Definition set_status (self : Position) (s : string) : Position :=
  {| symbol := symbol self; size := size self;
     entry_price := entry_price self; direction := direction self;
     stop_loss := stop_loss self; take_profit := take_profit self;
     entry_time := entry_time self; pnl := pnl self; status := s |}.

(** [Position.update]. *)
Definition Position_update (self : Position) (current_price : float)
  : Position :=
  let multiplier := if direction self =? "long" then 1 else -1 in
  set_pnl self
    ((current_price - entry_price self) * size self * multiplier)%float.

(** ** class PositionManager *)

Record PositionManager : Type := mkPositionManager {
  positions : dict Position;
  max_positions : nat;
  total_exposure : float;
  max_exposure : float
}.

(** [PositionManager.__init__]. *)
Definition PositionManager_init : PositionManager :=
  {| positions := []; max_positions := 10;
     total_exposure := 0; max_exposure := 100000 |}.

(** [PositionManager.open_position]. Nothing in the guarded block raises
    on numbers and strings, so the [except] branch is never taken. *)
Definition open_position (now : Z) (self : PositionManager)
    (symbol : string) (size entry_price : float) (direction : string)
    (stop_loss take_profit : option float) : bool * PositionManager :=
  (* Check position limits *)
  if (max_positions self <=? len (positions self))%nat then (false, self)
  else
    (* Check exposure limits *)
    let new_exposure := (size * entry_price)%float in
    if (max_exposure self <? total_exposure self + new_exposure)%float
    then (false, self)
    else
      (* Create and store new position *)
      let position :=
        Position_init now symbol size entry_price direction
                      stop_loss take_profit in
      (true,
       {| positions := setitem (positions self) symbol position;
          max_positions := max_positions self;
          total_exposure := (total_exposure self + new_exposure)%float;
          max_exposure := max_exposure self |}).

(** [PositionManager.close_position]. Beside the returned boolean and the
    manager, the third component is the [Position] object the call worked
    on, as it is when the call returns ([None] when no position was
    found): the dictionary no longer holds it, a caller that kept a
    reference still sees it. The [del] cannot raise: the key was found. *)
Definition close_position (self : PositionManager) (symbol : string)
    (exit_price : float) : bool * PositionManager * option Position :=
  match get (positions self) symbol with
  | None => (false, self, None)
  | Some position =>
      let position := Position_update position exit_price in
      (* Update exposure *)
      let exposure :=
        (total_exposure self - size position * entry_price position)%float in
      (* Archive position *)
      let position := set_status position "closed" in
      (true,
       {| positions := delitem (positions self) symbol;
          max_positions := max_positions self;
          total_exposure := exposure;
          max_exposure := max_exposure self |},
       Some position)
  end.

(** Truth value of an [Optional[float]]: [None] and zero (of either sign)
    are false, every other float (NaN too) is true. *)
Definition truthy (level : option float) : bool :=
  match level with
  | None => false
  | Some x => negb (x =? 0)%float
  end.

(** [price <= level] and [price >= level] for a level that is set; the
    conjunctions below reach them only behind [truthy level]. *)
Definition price_le (price : float) (level : option float) : bool :=
  match level with Some l => (price <=? l)%float | None => false end.

Definition price_ge (price : float) (level : option float) : bool :=
  match level with Some l => (l <=? price)%float | None => false end.

(** The [if]/[elif] chain of [update_positions], with the branch taken. *)
Inductive exit_rule : Type :=
| StopLossLong | StopLossShort | TakeProfitLong | TakeProfitShort.

Definition check_exit (position : Position) (price : float)
  : option exit_rule :=
  if truthy (stop_loss position) && (direction position =? "long")
     && price_le price (stop_loss position)
  then Some StopLossLong
  else if truthy (stop_loss position) && (direction position =? "short")
     && price_ge price (stop_loss position)
  then Some StopLossShort
  else if truthy (take_profit position) && (direction position =? "long")
     && price_ge price (take_profit position)
  then Some TakeProfitLong
  else if truthy (take_profit position) && (direction position =? "short")
     && price_le price (take_profit position)
  then Some TakeProfitShort
  else None.

Definition set_positions (self : PositionManager) (d : dict Position)
  : PositionManager :=
  {| positions := d; max_positions := max_positions self;
     total_exposure := total_exposure self;
     max_exposure := max_exposure self |}.

(** The body of the [for] loop of [update_positions] for one item. The
    item's [position] is the object the dictionary holds under [symbol]:
    [position.update] changes it in place. *)
Definition update_body (self : PositionManager) (prices : dict float)
    (symbol : string) (position : Position) : PositionManager :=
  match get prices symbol with
  | None => self
  | Some price =>
      let position := Position_update position price in
      let self := set_positions self
                    (setitem (positions self) symbol position) in
      (* Check stop loss and take profit *)
      match check_exit position price with
      | Some _ => snd (fst (close_position self symbol price))
      | None => self
      end
  end.

(** How a call of [update_positions] ends. *)
Inductive outcome : Type :=
| Returned
| Raised_RuntimeError.     (* dictionary changed size during iteration *)

(** The [for] loop over [self.positions.items()], on the live dictionary;
    [fuel] bounds the number of [next()] calls. *)
Fixpoint update_loop (fuel : nat) (prices : dict float)
    (it : dictiter) (self : PositionManager)
  : option (PositionManager * outcome) :=
  match fuel with
  | O => None
  | S fuel' =>
      match iternext (positions self) it with
      | RuntimeError_changed_size => Some (self, Raised_RuntimeError)
      | StopIteration => Some (self, Returned)
      | Item symbol position it' =>
          update_loop fuel' prices it'
            (update_body self prices symbol position)
      end
  end.

(** [PositionManager.update_positions]: one [next()] per entry and one
    more to end the loop. *)
Definition update_positions (self : PositionManager) (prices : dict float)
  : option (PositionManager * outcome) :=
  update_loop (S (len (positions self))) prices
              (items (positions self)) self.

(** [get_exposure] and [get_position_count]. *)
Definition get_exposure (self : PositionManager) : float :=
  total_exposure self.

Definition get_position_count (self : PositionManager) : nat :=
  len (positions self).

(** The quantity the ledger's invariant compares [total_exposure] with:
    [sum(p.size * p.entry_price for p in self.positions.values())]. *)
Definition notional (p : Position) : float :=
  (size p * entry_price p)%float.

Definition open_notional (self : PositionManager) : float :=
  fold_left (fun acc p => (acc + notional p)%float)
            (values (positions self)) 0%float.

(** A call of the ledger's interface, and the run of a sequence of calls
    from a given ledger (the clock reads the index of the call). *)
Inductive call : Type :=
| Open (symbol : string) (size entry_price : float) (direction : string)
       (stop_loss take_profit : option float)
| Close (symbol : string) (exit_price : float).

Definition do_call (now : Z) (self : PositionManager) (c : call)
  : bool * PositionManager :=
  match c with
  | Open s sz ep d sl tp => open_position now self s sz ep d sl tp
  | Close s xp => fst (close_position self s xp)
  end.

Fixpoint run_calls (now : Z) (self : PositionManager) (cs : list call)
  : PositionManager :=
  match cs with
  | [] => self
  | c :: cs' => run_calls (now + 1) (snd (do_call now self c)) cs'
  end.

End PositionLedger.

(* ================================================================== *)
(** * The system monitor: [src/core/monitoring.py] *)

Module Monitor.
Section WithMetrics.

(** A metrics snapshot: the dictionary [_collect_system_metrics] builds
    (the empty dictionary when sampling failed). The history buffer
    never looks inside it. *)
Variable Metrics : Type.

(** The fields of [SystemMonitor] that starting, stopping and sampling
    read or write. [alert_thresholds] and [alert_callbacks] are read by
    [_check_alerts] only, which writes no field and catches its own
    exceptions. *)
Record SystemMonitor : Type := mkSystemMonitor {
  metrics_history : list Metrics;
  max_history_size : nat;
  monitoring : bool
}.

(** [SystemMonitor.__init__]. *)
Definition SystemMonitor_init : SystemMonitor :=
  {| metrics_history := []; max_history_size := 1000;
     monitoring := false |}.

Definition set_monitoring (self : SystemMonitor) (b : bool)
  : SystemMonitor :=
  {| metrics_history := metrics_history self;
     max_history_size := max_history_size self;
     monitoring := b |}.

(** The monitor together with the event loop it runs on: [loop_tasks]
    counts the tasks that [asyncio.create_task(self._monitor_loop())]
    made and that have not finished. *)
Record Runtime : Type := mkRuntime {
  monitor : SystemMonitor;
  loop_tasks : nat
}.

Definition Runtime_init : Runtime :=
  {| monitor := SystemMonitor_init; loop_tasks := 0 |}.

(** [SystemMonitor.start_monitoring]: sets the flag and creates a task,
    whatever the flag was. *)
Definition start_monitoring (rt : Runtime) : Runtime :=
  {| monitor := set_monitoring (monitor rt) true;
     loop_tasks := S (loop_tasks rt) |}.

(** [SystemMonitor.stop_monitoring]: clears the flag; a task ends when it
    next tests it. *)
Definition stop_monitoring (rt : Runtime) : Runtime :=
  {| monitor := set_monitoring (monitor rt) false;
     loop_tasks := loop_tasks rt |}.

(** The "Store metrics" step of [_monitor_loop]: [append], then
    [pop(0)] when the list is longer than [max_history_size]. *)
Definition store_metrics (self : SystemMonitor) (metrics : Metrics)
  : SystemMonitor :=
  let history := metrics_history self ++ [metrics] in
  {| metrics_history :=
       if (max_history_size self <? length history)%nat
       then tl history else history;
     max_history_size := max_history_size self;
     monitoring := monitoring self |}.

(** One turn of one [_monitor_loop] task, from the test of the [while]
    to the [sleep]: [metrics] is what [_collect_system_metrics]
    returned this time. The task ends when the flag is cleared. *)
Definition monitor_loop_turn (rt : Runtime) (metrics : Metrics)
  : Runtime :=
  if monitoring (monitor rt)
  then {| monitor := store_metrics (monitor rt) metrics;
          loop_tasks := loop_tasks rt |}
  else {| monitor := monitor rt; loop_tasks := Nat.pred (loop_tasks rt) |}.

(** One sampling interval: every live task takes one turn, each with
    its own sample. *)
Fixpoint wake_tasks (n : nat) (rt : Runtime) (samples : list Metrics)
  : Runtime :=
  match n, samples with
  | S n', m :: samples' => wake_tasks n' (monitor_loop_turn rt m) samples'
  | _, _ => rt
  end.

Definition sampling_interval (rt : Runtime) (samples : list Metrics)
  : Runtime :=
  wake_tasks (loop_tasks rt) rt samples.

(** The monitor after a sequence of sampling ticks. *)
Definition run_ticks (self : SystemMonitor) (samples : list Metrics)
  : SystemMonitor :=
  fold_left store_metrics samples self.

(** [get_current_metrics]: the last snapshot, if any. *)
Definition get_current_metrics (self : SystemMonitor) : option Metrics :=
  last (map Some (metrics_history self)) None.

End WithMetrics.
End Monitor.

(* ================================================================== *)
(** * The risk calculator: [src/core/risk_metrics.py] *)

Module Risk.
Local Open Scope float_scope.

Definition float_of_nat (n : nat) : float :=
  PrimFloat.of_uint63 (Uint63.of_Z (Z.of_nat n)).

(** [np.mean] and [np.std] of a one-dimensional array. The sum is taken
    from left to right (numpy adds long arrays in blocks, which can round
    differently). *)
Definition np_sum (a : list float) : float :=
  fold_left PrimFloat.add a 0.

Definition np_mean (a : list float) : float :=
  np_sum a / float_of_nat (length a).

Definition np_std (a : list float) : float :=
  let m := np_mean a in
  PrimFloat.sqrt (np_mean (map (fun x => (x - m) * (x - m)) a)).

(** The default of the keyword argument [risk_free_rate]. *)
Definition default_risk_free_rate : float := 0.02.

(** [RiskCalculator.calculate_sharpe_ratio]. Arithmetic on numpy arrays
    of floats signals by warnings, not exceptions: the [except] branch
    (which also returns 0.0) is not taken. *)
Definition calculate_sharpe_ratio (returns : list float)
    (risk_free_rate : float) : float :=
  let returns_array := returns in
  let excess_returns :=
    map (fun r => r - risk_free_rate / 252) returns_array in
  if (length excess_returns <? 2)%nat then 0
  else
    PrimFloat.sqrt 252 * (np_mean excess_returns / np_std excess_returns).

End Risk.

(* ================================================================== *)
(** * The supervisor: [src/core/master_agent.py], [src/agents/base.py] *)

Module Supervisor.
Import PyDict.
Local Open Scope string_scope.

(** The agent classes [master_agent.py] imports. *)
Inductive AgentClass : Type :=
| StrategyAgent
| RiskManagementAgent
| DeploymentAgent
| BacktestingAgent
| ResearchAgent.

(** [cls.__name__]. *)
Definition class_name (c : AgentClass) : string :=
  match c with
  | StrategyAgent => "StrategyAgent"
  | RiskManagementAgent => "RiskManagementAgent"
  | DeploymentAgent => "DeploymentAgent"
  | BacktestingAgent => "BacktestingAgent"
  | ResearchAgent => "ResearchAgent"
  end.

(** [str.lower] on ASCII text. *)
Definition lower_ascii (c : ascii) : ascii :=
  let n := nat_of_ascii c in
  if ((65 <=? n) && (n <=? 90))%nat then ascii_of_nat (n + 32) else c.

Fixpoint lower (s : string) : string :=
  match s with
  | EmptyString => EmptyString
  | String c rest => String (lower_ascii c) (lower rest)
  end.

(** The table of [_create_agent_instance]. *)
Definition agent_classes : dict AgentClass :=
  [("strategy", StrategyAgent); ("risk", RiskManagementAgent);
   ("deployment", DeploymentAgent); ("backtesting", BacktestingAgent);
   ("research", ResearchAgent)].

(** What a call can raise: a [ValueError], another [Exception] of agent
    code, or an exception that is no [Exception] and that no
    [except Exception] catches ([asyncio.CancelledError] when the task is
    cancelled at an [await]; [KeyboardInterrupt] and [SystemExit] behave
    the same). *)
Inductive exn : Type :=
| ValueError (msg : string)
| AgentException (msg : string)
| CancelledError (msg : string).

(** [str(e)]. *)
Definition str (e : exn) : string :=
  match e with
  | ValueError msg => msg
  | AgentException msg => msg
  | CancelledError msg => msg
  end.

(** [isinstance(e, Exception)]: whether [except Exception] catches [e]. *)
Definition is_Exception (e : exn) : bool :=
  match e with
  | ValueError _ | AgentException _ => true
  | CancelledError _ => false
  end.

(** [datetime.now()] is read as a number of microseconds.
    [(later - earlier).seconds] is the seconds field of the normalised
    [timedelta]: the whole seconds of the difference that do not make up
    a day, from 0 to 86399. *)
Definition timedelta_seconds (later earlier : Z) : Z :=
  (((later - earlier) / 1000000) mod 86400)%Z.

Inductive log_record : Type :=
| Info (msg : string)
| Warning (msg : string)
| Error (msg : string).

(** A call that returns a value or raises. *)
Inductive result (A : Type) : Type :=
| Ok (a : A)
| Raise (e : exn).

Arguments Ok {A} a.
Arguments Raise {A} e.

Section WithAgents.

(** [agent.config]: the keyword arguments the agent was made with. *)
Variable Config : Type.

(** The fields [BaseAgent.__init__] sets, and the class of the object. *)
Record Agent : Type := mkAgent {
  agent_class : AgentClass;
  id : string;
  status : string;
  config : Config;
  last_update : Z;
  error_count : nat;
  max_errors : nat
}.

(** The agent classes themselves are not part of the sources at hand
    ([src/agents/strategy.py] and the like): their constructors and
    their [initialize] methods are taken as given.
    [construct c config] is the class [c] called with the entries of
    [config] as keyword arguments; [initialize a] is the object
    after [await a.initialize()] and the exception, if it raised one. *)
Variable construct : AgentClass -> Config -> result Agent.
Variable initialize : Agent -> Agent * option exn.

(** [MasterAgent._create_agent_instance]. *)
Definition _create_agent_instance (agent_type : string) (config : Config)
  : result Agent :=
  match get agent_classes agent_type with
  | None => Raise (ValueError ("Unknown agent type: " ++ agent_type))
  | Some cls => construct cls config
  end.

Definition recovery_failed (agent_id : string) (e : exn) : log_record :=
  Error ("Failed to recover agent " ++ agent_id ++ ": " ++ str e).

(** The [except Exception] clause of [_handle_agent_failure]: an
    [Exception] is logged and the call returns; any other exception goes
    on to the caller. *)
Definition recovery_except (agents : dict Agent) (log : list log_record)
    (agent_id : string) (e : exn)
  : dict Agent * list log_record * option exn :=
  if is_Exception e
  then (agents, (log ++ [recovery_failed agent_id e])%list, None)
  else (agents, log, Some e).

(** [MasterAgent._handle_agent_failure]. [agent] is the object
    registered under [agent_id] (the health check passes an item of
    [self.agents]): what [initialize] does to it in place shows in the
    registry. Returns the registry, the records logged and the exception
    that leaves the call, if one does. *)
Definition _handle_agent_failure (agents : dict Agent)
    (agent_id : string) (agent : Agent)
  : dict Agent * list log_record * option exn :=
  let log := [Info ("Attempting to recover agent: " ++ agent_id)] in
  let (agent, raised) := initialize agent in
  let agents := setitem agents agent_id agent in
  match raised with
  | Some e => recovery_except agents log agent_id e
  | None =>
      if negb (status agent =? "active") then
        (* Create a new instance if initialization fails *)
        match _create_agent_instance
                (lower (class_name (agent_class agent))) (config agent)
        with
        | Raise e => recovery_except agents log agent_id e
        | Ok new_agent =>
            let (new_agent, raised) := initialize new_agent in
            match raised with
            | Some e => recovery_except agents log agent_id e
            | None => (setitem agents agent_id new_agent, log, None)
            end
        end
      else (agents, log, None)
  end.

(** The loop over [self.agents.items()] of a due health check. The
    registry keeps its keys and their order through the loop (recovery
    only rebinds the key at hand), so the loop is over the keys as they
    were at its start. An exception that leaves [_handle_agent_failure]
    ends the loop. *)
Fixpoint check_agents (ids : list string) (agents : dict Agent)
  : dict Agent * list log_record * option exn :=
  match ids with
  | [] => (agents, [], None)
  | agent_id :: rest =>
      match get agents agent_id with
      | None => check_agents rest agents
      | Some agent =>
          if negb (status agent =? "active") then
            let warning :=
              Warning ("Agent " ++ agent_id ++ " is not active. Status: "
                       ++ status agent) in
            match _handle_agent_failure agents agent_id agent with
            | (agents, log, Some e) => (agents, warning :: log, Some e)
            | (agents, log, None) =>
                let '(agents, log', raised) := check_agents rest agents in
                (agents, (warning :: log ++ log')%list, raised)
            end
          else check_agents rest agents
      end
  end.

(** The fields of [MasterAgent] that the health checks read or write. *)
Record MasterAgent : Type := mkMasterAgent {
  agents : dict Agent;
  last_health_check : Z;
  health_check_interval : Z     (* seconds; 300 as constructed *)
}.

(** A due health check, the body of the [if] of [_run_health_checks]: the
    record logged first, the loop over the agents, then the write of
    [last_health_check], which an exception that leaves the loop skips.
    [self.monitor.get_current_metrics()] reads the monitor's history and
    its result is not used. *)
Definition run_due_health_check (self : MasterAgent) (current_time : Z)
  : MasterAgent * list log_record * option exn :=
  let info := Info "Running system health checks..." in
  let '(registry, log, raised) :=
    check_agents (keys (agents self)) (agents self) in
  match raised with
  | Some e =>
      ({| agents := registry;
          last_health_check := last_health_check self;
          health_check_interval := health_check_interval self |},
       info :: log, Some e)
  | None =>
      ({| agents := registry;
          last_health_check := current_time;
          health_check_interval := health_check_interval self |},
       info :: log, None)
  end.

(** Whether a health check is due at [current_time]. *)
Definition health_check_due (self : MasterAgent) (current_time : Z) : bool :=
  (health_check_interval self
   <=? timedelta_seconds current_time (last_health_check self))%Z.

(** One pass of the [while True] loop of [_run_health_checks], from the
    reading of the clock to the [sleep]; [current_time] is what
    [datetime.now()] returns. The loop's own [except Exception] logs an
    [Exception] and goes on; any other exception ends the task. *)
Definition run_health_checks_pass (self : MasterAgent) (current_time : Z)
  : MasterAgent * list log_record * option exn :=
  let '(self', log, raised) :=
    if health_check_due self current_time
    then run_due_health_check self current_time
    else (self, [], None) in
  match raised with
  | Some e =>
      if is_Exception e
      then (self', (log ++ [Error ("Health check failed: " ++ str e)])%list,
            None)
      else (self', log, Some e)
  | None => (self', log, None)
  end.

End WithAgents.

End Supervisor.

(* ================================================================== *)
(** * Facts about dictionaries *)

Module PyDictFacts.
Import PyDict.

(** The representation invariant of a dictionary: no key is bound twice. *)
Definition wf {V : Type} (d : dict V) : Prop := NoDup (keys d).

Section Facts.
Context {V : Type}.
Implicit Types (d : dict V) (k : string) (v : V).

Lemma get_None_not_key d k : get d k = None <-> ~ In k (keys d).
Proof.
  induction d as [|[k' v'] d IH]; simpl.
  - tauto.
  - destruct (String.eqb_spec k k') as [->|Hne].
    + split; [discriminate | intros H; exfalso; apply H; now left].
    + rewrite IH. split.
      * intros H [Heq|Hin]; [now apply Hne | now apply H].
      * intros H Hin. apply H. now right.
Qed.

Lemma get_setitem_same d k v : get (setitem d k v) k = Some v.
Proof.
  induction d as [|[k' v'] d IH]; simpl.
  - now rewrite String.eqb_refl.
  - destruct (String.eqb_spec k k') as [->|Hne]; simpl.
    + now rewrite String.eqb_refl.
    + destruct (String.eqb_spec k k'); [contradiction | exact IH].
Qed.

Lemma get_setitem_other d k k' v :
  k' <> k -> get (setitem d k v) k' = get d k'.
Proof.
  intros Hne. induction d as [|[k0 v0] d IH]; simpl.
  - destruct (String.eqb_spec k' k); [contradiction | reflexivity].
  - destruct (String.eqb_spec k k0) as [->|Hk]; simpl.
    + destruct (String.eqb_spec k' k0); [contradiction | reflexivity].
    + destruct (String.eqb_spec k' k0); [reflexivity | exact IH].
Qed.

Lemma keys_delitem_subset d k k' :
  In k' (keys (delitem d k)) -> In k' (keys d).
Proof.
  induction d as [|[k0 v0] d IH]; simpl; [tauto|].
  destruct (String.eqb_spec k k0) as [->|Hk]; simpl.
  - now right.
  - intros [H|H]; [now left | right; now apply IH].
Qed.

Lemma get_delitem_same d k : wf d -> get (delitem d k) k = None.
Proof.
  unfold wf. induction d as [|[k0 v0] d IH]; simpl; intros Hwf.
  - reflexivity.
  - inversion Hwf as [|? ? Hnotin Hnodup]; subst.
    destruct (String.eqb_spec k k0) as [->|Hk]; simpl.
    + now apply get_None_not_key.
    + destruct (String.eqb_spec k k0); [contradiction | now apply IH].
Qed.

Lemma get_delitem_other d k k' :
  k' <> k -> get (delitem d k) k' = get d k'.
Proof.
  intros Hne. induction d as [|[k0 v0] d IH]; simpl; [reflexivity|].
  destruct (String.eqb_spec k k0) as [->|Hk]; simpl.
  - destruct (String.eqb_spec k' k0); [contradiction | reflexivity].
  - destruct (String.eqb_spec k' k0); [reflexivity | exact IH].
Qed.

Lemma len_delitem d k v :
  get d k = Some v -> S (len (delitem d k)) = len d.
Proof.
  unfold len. induction d as [|[k0 v0] d IH]; simpl; [discriminate|].
  destruct (String.eqb_spec k k0) as [->|Hk]; simpl.
  - reflexivity.
  - intros H. now rewrite IH.
Qed.

Lemma len_setitem_bound d k v p :
  get d k = Some p -> len (setitem d k v) = len d.
Proof.
  unfold len. induction d as [|[k0 v0] d IH]; simpl; [discriminate|].
  destruct (String.eqb_spec k k0) as [->|Hk]; simpl.
  - reflexivity.
  - intros H. now rewrite IH.
Qed.

Lemma len_setitem_new d k v :
  get d k = None -> len (setitem d k v) = S (len d).
Proof.
  unfold len. induction d as [|[k0 v0] d IH]; simpl; [reflexivity|].
  destruct (String.eqb_spec k k0) as [->|Hk]; simpl.
  - discriminate.
  - intros H. now rewrite IH.
Qed.

Lemma keys_setitem d k v k' :
  In k' (keys (setitem d k v)) <-> k' = k \/ In k' (keys d).
Proof.
  induction d as [|[k0 v0] d IH]; simpl.
  - intuition congruence.
  - destruct (String.eqb_spec k k0) as [->|Hk]; simpl.
    + intuition congruence.
    + rewrite IH. intuition congruence.
Qed.

Lemma wf_nil : wf (@nil (string * V)).
Proof. constructor. Qed.

Lemma wf_setitem d k v : wf d -> wf (setitem d k v).
Proof.
  unfold wf. induction d as [|[k0 v0] d IH]; simpl; intros Hwf.
  - constructor; [intros [] | constructor].
  - inversion Hwf as [|? ? Hnotin Hnodup]; subst.
    destruct (String.eqb_spec k k0) as [->|Hk]; simpl.
    + now constructor.
    + constructor; [|now apply IH].
      intros Hin. apply keys_setitem in Hin.
      destruct Hin as [->|Hin]; [now apply Hk | now apply Hnotin].
Qed.

Lemma wf_delitem d k : wf d -> wf (delitem d k).
Proof.
  unfold wf. induction d as [|[k0 v0] d IH]; simpl; intros Hwf.
  - constructor.
  - inversion Hwf as [|? ? Hnotin Hnodup]; subst.
    destruct (String.eqb_spec k k0) as [->|Hk]; simpl; [assumption|].
    constructor; [|now apply IH].
    intros Hin. apply Hnotin. eapply keys_delitem_subset; eassumption.
Qed.
Lemma get_app_notin d1 d2 k :
  ~ In k (keys d1) -> get (d1 ++ d2) k = get d2 k.
Proof.
  induction d1 as [|[k0 v0] d1 IH]; simpl; intros Hnotin; [reflexivity|].
  destruct (String.eqb_spec k k0) as [->|Hk].
  - exfalso. apply Hnotin. now left.
  - apply IH. intros Hin. apply Hnotin. now right.
Qed.

Lemma setitem_app_notin d1 d2 k v v' :
  ~ In k (keys d1) ->
  setitem (d1 ++ (k, v) :: d2) k v' = d1 ++ (k, v') :: d2.
Proof.
  induction d1 as [|[k0 v0] d1 IH]; simpl; intros Hnotin.
  - now rewrite String.eqb_refl.
  - destruct (String.eqb_spec k k0) as [->|Hk].
    + exfalso. apply Hnotin. now left.
    + rewrite IH; [reflexivity|]. intros Hin. apply Hnotin. now right.
Qed.

Lemma delitem_app_notin d1 d2 k v :
  ~ In k (keys d1) -> delitem (d1 ++ (k, v) :: d2) k = d1 ++ d2.
Proof.
  induction d1 as [|[k0 v0] d1 IH]; simpl; intros Hnotin.
  - now rewrite String.eqb_refl.
  - destruct (String.eqb_spec k k0) as [->|Hk].
    + exfalso. apply Hnotin. now left.
    + rewrite IH; [reflexivity|]. intros Hin. apply Hnotin. now right.
Qed.

Lemma wf_app_notin d1 d2 k v :
  wf (d1 ++ (k, v) :: d2) -> ~ In k (keys d1).
Proof.
  unfold wf, keys. rewrite map_app. simpl. intros Hwf Hin.
  apply NoDup_remove_2 in Hwf. apply Hwf. apply in_or_app. now left.
Qed.

Lemma wf_rebind d1 d2 k v v' :
  wf (d1 ++ (k, v) :: d2) -> wf ((d1 ++ [(k, v')]) ++ d2).
Proof.
  unfold wf, keys. now rewrite <- app_assoc, !map_app.
Qed.
End Facts.

(** [map_values] goes through every operation of the dictionary. *)
Section MapValues.
Context {V W : Type} (f : V -> W).
Implicit Types (d : dict V) (k : string).

Lemma get_map_values d k :
  get (map_values f d) k = option_map f (get d k).
Proof.
  induction d as [|[k0 v0] d IH]; simpl; [reflexivity|].
  now destruct (String.eqb k k0).
Qed.

Lemma setitem_map_values d k v :
  setitem (map_values f d) k (f v) = map_values f (setitem d k v).
Proof.
  induction d as [|[k0 v0] d IH]; simpl; [reflexivity|].
  destruct (String.eqb k k0); simpl; [reflexivity | now rewrite IH].
Qed.

Lemma delitem_map_values d k :
  delitem (map_values f d) k = map_values f (delitem d k).
Proof.
  induction d as [|[k0 v0] d IH]; simpl; [reflexivity|].
  destruct (String.eqb k k0); simpl; [reflexivity | now rewrite IH].
Qed.

Lemma len_map_values d : len (map_values f d) = len d.
Proof. unfold len, map_values. apply length_map. Qed.

Lemma iternext_map_values d it :
  iternext (map_values f d) it =
  match iternext d it with
  | Item k v it' => Item k (f v) it'
  | StopIteration => StopIteration
  | RuntimeError_changed_size => RuntimeError_changed_size
  end.
Proof.
  unfold iternext. rewrite len_map_values.
  destruct (negb (di_used it =? len d)); [reflexivity|].
  unfold map_values. rewrite nth_error_map.
  destruct (nth_error d (di_pos it)) as [[k v]|]; reflexivity.
Qed.
End MapValues.

End PyDictFacts.

(* ================================================================== *)
(** * The position ledger: limits, closing, exposure *)

Module PositionLedgerFacts.
Import PyDict PyDictFacts PositionLedger.
Local Open Scope string_scope.
Local Open Scope list_scope.
Local Open Scope float_scope.

(** ** Ledgers used as concrete inputs *)

(** Ten opens of distinct symbols, one unit at 100 each. *)
Definition ten_opens : list call :=
  map (fun s => Open s 1 100 "long" None None)
      ["S0"; "S1"; "S2"; "S3"; "S4"; "S5"; "S6"; "S7"; "S8"; "S9"].

Definition full_ledger : PositionManager :=
  run_calls 0 PositionManager_init ten_opens.

(** One position with a notional of 95000. *)
Definition ledger_95000 : PositionManager :=
  run_calls 0 PositionManager_init [Open "A" 1 95000 "long" None None].

(** A long position of two units entered at 100. *)
Definition ledger_two_units : PositionManager :=
  run_calls 0 PositionManager_init [Open "A" 2 100 "long" None None].

(** ** The dictionary of a ledger stays well formed *)

Lemma open_position_wf now self symbol size entry_price direction sl tp :
  wf (positions self) ->
  wf (positions (snd (open_position now self symbol size entry_price
                                    direction sl tp))).
Proof.
  intros Hwf. unfold open_position.
  destruct (max_positions self <=? len (positions self))%nat; [exact Hwf|].
  destruct (max_exposure self <? total_exposure self + size * entry_price);
    [exact Hwf|].
  simpl. now apply wf_setitem.
Qed.

Lemma close_position_wf self symbol exit_price :
  wf (positions self) ->
  wf (positions (snd (fst (close_position self symbol exit_price)))).
Proof.
  intros Hwf. unfold close_position.
  destruct (get (positions self) symbol); simpl; [|exact Hwf].
  now apply wf_delitem.
Qed.

Lemma run_calls_wf cs : forall now self,
  wf (positions self) -> wf (positions (run_calls now self cs)).
Proof.
  induction cs as [|c cs IH]; intros now self Hwf; simpl; [exact Hwf|].
  apply IH. destruct c; simpl.
  - now apply open_position_wf.
  - now apply close_position_wf.
Qed.

Lemma reachable_wf cs : wf (positions (run_calls 0 PositionManager_init cs)).
Proof. apply run_calls_wf. apply wf_nil. Qed.

(** ** Opening at the position limit *)

Lemma open_position_at_or_over_max now self symbol size entry_price
      direction sl tp :
  (max_positions self <= len (positions self))%nat ->
  open_position now self symbol size entry_price direction sl tp
  = (false, self).
Proof.
  intros Hmax. unfold open_position.
  apply Nat.leb_le in Hmax. now rewrite Hmax.
Qed.

(** C2. An [open_position] made while the number of open positions equals
    [max_positions] (10 for a ledger as constructed) returns [False] and
    leaves the ledger, its positions and its total exposure, as it was. *)
Theorem open_position_rejected_at_max_positions :
  forall now self symbol size entry_price direction stop_loss take_profit,
    len (positions self) = max_positions self ->
    open_position now self symbol size entry_price direction
                  stop_loss take_profit
    = (false, self).
Proof.
  intros now self symbol size entry_price direction sl tp Hlen.
  apply open_position_at_or_over_max. rewrite Hlen. apply Nat.le_refl.
Qed.

(** After ten opens of distinct symbols the eleventh is rejected. *)
Lemma open_position_rejected_at_max_positions_witness :
  len (positions full_ledger) = max_positions full_ledger
  /\ max_positions full_ledger = 10%nat
  /\ open_position 10 full_ledger "S10" 1 100 "long" None None
     = (false, full_ledger).
Proof.
  split; [reflexivity|]. split; [reflexivity|].
  apply open_position_rejected_at_max_positions. reflexivity.
Defined.

(** ** Opening against the exposure cap *)

Lemma keys_setitem_unbound {V : Type} (d : dict V) k v :
  get d k = None -> keys (setitem d k v) = keys d ++ [k].
Proof.
  induction d as [|[k0 v0] d IH]; simpl; [reflexivity|].
  destruct (String.eqb_spec k k0) as [->|Hne]; [discriminate|].
  intros Hget. simpl. now rewrite (IH Hget).
Qed.

(** C3. When [total_exposure + size * entry_price > max_exposure], the
    call returns [False] and leaves the ledger as it was. When neither
    limit is hit, the call returns [True] and binds [symbol] to a new
    position that carries the call's symbol, size, entry price,
    direction, stop-loss and take-profit, the clock's reading, a pnl of
    0.0 and the status "open"; every other symbol is as it was; a symbol
    that was not bound comes last and makes the dictionary one longer, a
    bound symbol keeps the dictionary's length; [total_exposure] goes up
    by exactly [size * entry_price]; both limits are as they were. *)
Theorem open_position_exposure_limit :
  forall now self symbol size entry_price direction stop_loss take_profit,
    ((max_exposure self <? total_exposure self + size * entry_price) = true ->
     open_position now self symbol size entry_price direction
                   stop_loss take_profit
     = (false, self))
    /\
    ((len (positions self) < max_positions self)%nat ->
     (max_exposure self <? total_exposure self + size * entry_price) = false ->
     exists self' position,
       open_position now self symbol size entry_price direction
                     stop_loss take_profit
       = (true, self')
       /\ get (positions self') symbol = Some position
       /\ position = Position_init now symbol size entry_price direction
                                   stop_loss take_profit
       /\ PositionLedger.symbol position = symbol
       /\ PositionLedger.size position = size
       /\ PositionLedger.entry_price position = entry_price
       /\ PositionLedger.direction position = direction
       /\ PositionLedger.stop_loss position = stop_loss
       /\ PositionLedger.take_profit position = take_profit
       /\ entry_time position = now
       /\ pnl position = 0
       /\ status position = "open"
       /\ (forall k, k <> symbol ->
                     get (positions self') k = get (positions self) k)
       /\ (get (positions self) symbol = None ->
           keys (positions self') = keys (positions self) ++ [symbol]
           /\ len (positions self') = S (len (positions self)))
       /\ (get (positions self) symbol <> None ->
           len (positions self') = len (positions self))
       /\ total_exposure self' = total_exposure self + size * entry_price
       /\ max_positions self' = max_positions self
       /\ max_exposure self' = max_exposure self).
Proof.
  intros now self symbol size entry_price direction sl tp. split.
  - intros Hover. unfold open_position.
    destruct (max_positions self <=? len (positions self))%nat;
      [reflexivity|].
    now rewrite Hover.
  - intros Hcount Hfits. unfold open_position.
    apply Nat.leb_gt in Hcount. rewrite Hcount, Hfits.
    eexists. eexists. split; [reflexivity|]. simpl.
    split; [apply get_setitem_same|].
    do 10 (split; [reflexivity|]).
    split; [intros k Hk; now apply get_setitem_other|].
    split; [intros Hnew; split;
            [now apply keys_setitem_unbound | now apply len_setitem_new]|].
    split; [|repeat split].
    intros Hbound. destruct (get (positions self) symbol) as [p|] eqn:Hget;
      [|contradiction].
    now apply len_setitem_bound with (p := p).
Qed.

(** With a cap of 100000 and an exposure of 95000, a notional of 10000 is
    rejected and a notional of 5000 is accepted: two units of "B" sold
    short at 2500, with a stop-loss at 2600, are then in the ledger after
    "A", as the call gave them. *)
Lemma open_position_exposure_limit_witness :
  total_exposure ledger_95000 = 95000
  /\ max_exposure ledger_95000 = 100000
  /\ open_position 1 ledger_95000 "B" 1 10000 "long" None None
     = (false, ledger_95000)
  /\ exists self' position,
       open_position 7 ledger_95000 "B" 2 2500 "short" (Some 2600) None
       = (true, self')
       /\ get (positions self') "B" = Some position
       /\ (PositionLedger.symbol position, PositionLedger.size position,
           PositionLedger.entry_price position,
           PositionLedger.direction position)
          = ("B", 2, 2500, "short")
       /\ (PositionLedger.stop_loss position,
           PositionLedger.take_profit position, entry_time position)
          = (Some 2600, None, 7%Z)
       /\ (pnl position, status position) = (0, "open")
       /\ keys (positions self') = ["A"; "B"]
       /\ total_exposure self' = 100000.
Proof.
  split; [reflexivity|]. split; [reflexivity|]. split.
  - apply (proj1 (open_position_exposure_limit
                    1 ledger_95000 "B" 1 10000 "long" None None)).
    reflexivity.
  - destruct (proj2 (open_position_exposure_limit
                       7 ledger_95000 "B" 2 2500 "short" (Some 2600) None))
      as (self' & position & Hopen & Hget & _ & Hsym & Hsize & Hprice
          & Hdir & Hsl & Htp & Htime & Hpnl & Hstatus & _ & Hnew & _
          & Htotal & _).
    + vm_compute. lia.
    + reflexivity.
    + exists self', position. split; [exact Hopen|]. split; [exact Hget|].
      rewrite Hsym, Hsize, Hprice, Hdir, Hsl, Htp, Htime, Hpnl, Hstatus.
      split; [reflexivity|]. split; [reflexivity|]. split; [reflexivity|].
      split; [|rewrite Htotal; reflexivity].
      rewrite (proj1 (Hnew eq_refl)). reflexivity.
Defined.

(** ** Closing *)

(** C5. [close_position] on a symbol with no open position returns
    [False] and leaves the ledger as it was. Otherwise it returns [True];
    the position's pnl is recomputed at [exit_price] and its status is
    "closed"; [total_exposure] goes down by the position's
    [size * entry_price]; the symbol is no longer bound and every other
    symbol is as it was. *)
Theorem close_position_spec :
  forall self symbol exit_price,
    wf (positions self) ->
    (get (positions self) symbol = None ->
     close_position self symbol exit_price = (false, self, None))
    /\
    (forall p, get (positions self) symbol = Some p ->
     exists self' p',
       close_position self symbol exit_price = (true, self', Some p')
       /\ pnl p' = (exit_price - entry_price p) * size p
                   * (if (direction p =? "long")%string then 1 else -1)
       /\ status p' = "closed"
       /\ (PositionLedger.symbol p', size p', entry_price p', direction p')
          = (PositionLedger.symbol p, size p, entry_price p, direction p)
       /\ total_exposure self'
          = total_exposure self - size p * entry_price p
       /\ get (positions self') symbol = None
       /\ (forall k, k <> symbol ->
                     get (positions self') k = get (positions self) k)
       /\ S (len (positions self')) = len (positions self)
       /\ max_positions self' = max_positions self
       /\ max_exposure self' = max_exposure self).
Proof.
  intros self symbol exit_price Hwf. split.
  - intros Hget. unfold close_position. now rewrite Hget.
  - intros p Hget. unfold close_position. rewrite Hget.
    eexists. eexists. split; [reflexivity|]. simpl.
    split; [reflexivity|]. split; [reflexivity|]. split; [reflexivity|].
    split; [reflexivity|].
    split; [now apply get_delitem_same|].
    split; [intros k Hk; now apply get_delitem_other|].
    split; [eapply len_delitem; eassumption|].
    split; reflexivity.
Qed.

(** Two units entered at 100 and closed at 110: the pnl is 20, the
    exposure goes from 200 to 0; closing a symbol that is not open
    changes nothing. *)
Lemma close_position_spec_witness :
  wf (positions ledger_two_units)
  /\ get (positions ledger_two_units) "B" = None
  /\ close_position ledger_two_units "B" 110 = (false, ledger_two_units, None)
  /\ get (positions ledger_two_units) "A"
     = Some (Position_init 0 "A" 2 100 "long" None None)
  /\ total_exposure ledger_two_units = 200
  /\ exists self' p',
       close_position ledger_two_units "A" 110 = (true, self', Some p')
       /\ pnl p' = 20 /\ status p' = "closed"
       /\ total_exposure self' = 0
       /\ get (positions self') "A" = None.
Proof.
  assert (Hwf : wf (positions ledger_two_units)).
  { unfold wf. simpl. constructor; [simpl; tauto | constructor]. }
  split; [exact Hwf|]. split; [reflexivity|]. split.
  - apply (proj1 (close_position_spec ledger_two_units "B" 110 Hwf)).
    reflexivity.
  - split; [reflexivity|]. split; [reflexivity|].
    destruct (proj2 (close_position_spec ledger_two_units "A" 110 Hwf)
                    (Position_init 0 "A" 2 100 "long" None None)
                    eq_refl)
      as (self' & p' & Hclose & Hpnl & Hstatus & _ & Htotal & Hgone & _).
    exists self', p'. split; [exact Hclose|].
    split; [rewrite Hpnl; reflexivity|]. split; [exact Hstatus|].
    split; [rewrite Htotal; reflexivity | exact Hgone].
Defined.

(** ** Total exposure against the open positions *)

(** Opening the same symbol twice, one unit at 100 each time. *)
Definition reopened_ledger : PositionManager :=
  run_calls 0 PositionManager_init
    [Open "A" 1 100 "long" None None; Open "A" 1 100 "long" None None].

(** C1, at the failing input. After two opens of the same symbol one
    position is open, with a notional of 100, and [total_exposure] is 200;
    after that position is closed no position is open and
    [total_exposure] is 100. *)
Theorem reopen_same_symbol_overstates_exposure :
  get_position_count reopened_ledger = 1%nat
  /\ open_notional reopened_ledger = 100
  /\ total_exposure reopened_ledger = 200
  /\ (total_exposure reopened_ledger =? open_notional reopened_ledger)
     = false
  /\ exists closed closed_position,
       close_position reopened_ledger "A" 100
       = (true, closed, Some closed_position)
       /\ positions closed = []
       /\ open_notional closed = 0
       /\ total_exposure closed = 100.
Proof.
  repeat (split; [reflexivity|]).
  eexists. eexists. repeat split.
Qed.

(** The symbol a call is about, and the calls that open. *)
Definition call_symbol (c : call) : string :=
  match c with Open s _ _ _ _ _ => s | Close s _ => s end.

Definition is_open (c : call) : Prop :=
  match c with Open _ _ _ _ _ _ => True | Close _ _ => False end.

Lemma values_setitem_new (d : dict Position) k v :
  get d k = None -> values (setitem d k v) = (values d ++ [v])%list.
Proof.
  unfold values. induction d as [|[k0 v0] d IH]; simpl; [reflexivity|].
  destruct (String.eqb k k0); [discriminate|].
  intros H. simpl. now rewrite IH.
Qed.

Lemma open_position_new_symbol_invariant
      now self symbol size entry_price direction sl tp :
  get (positions self) symbol = None ->
  total_exposure self = open_notional self ->
  let self' := snd (open_position now self symbol size entry_price
                                  direction sl tp) in
  total_exposure self' = open_notional self'.
Proof.
  intros Hnew Hinv. unfold open_position.
  destruct (max_positions self <=? len (positions self))%nat;
    [exact Hinv|].
  destruct (max_exposure self <? total_exposure self + size * entry_price);
    [exact Hinv|].
  simpl. unfold open_notional. simpl.
  rewrite values_setitem_new by exact Hnew.
  rewrite fold_left_app. simpl. unfold open_notional in Hinv.
  now rewrite <- Hinv.
Qed.

Lemma open_position_keys now self symbol size entry_price direction sl tp k :
  In k (keys (positions (snd (open_position now self symbol size
                                            entry_price direction sl tp)))) ->
  k = symbol \/ In k (keys (positions self)).
Proof.
  unfold open_position.
  destruct (max_positions self <=? len (positions self))%nat;
    [now right|].
  destruct (max_exposure self <? total_exposure self + size * entry_price);
    [now right|].
  simpl. apply keys_setitem.
Qed.

(** What does hold: a sequence of opens of symbols that are all new keeps
    [total_exposure] equal to the sum over the open positions, which adds
    the notionals in the order the positions were opened. *)
Lemma opens_of_new_symbols_keep_invariant cs : forall now self,
  Forall is_open cs ->
  NoDup (map call_symbol cs) ->
  (forall c, In c cs -> get (positions self) (call_symbol c) = None) ->
  total_exposure self = open_notional self ->
  total_exposure (run_calls now self cs)
  = open_notional (run_calls now self cs).
Proof.
  induction cs as [|c cs IH]; intros now self Hopen Hnodup Hnew Hinv;
    simpl; [exact Hinv|].
  inversion Hopen as [|? ? Hc Hcs]; subst.
  inversion Hnodup as [|? ? Hnotin Hnodup']; subst.
  destruct c as [s sz ep d sl tp|]; [|contradiction]. simpl in *.
  apply IH; try assumption.
  - intros c Hin. apply get_None_not_key. intros Hkey.
    apply open_position_keys in Hkey. destruct Hkey as [Heq|Hkey].
    + apply Hnotin. rewrite <- Heq. now apply in_map.
    + revert Hkey. apply get_None_not_key. apply Hnew. now right.
  - apply open_position_new_symbol_invariant; [|exact Hinv].
    apply (Hnew (Open s sz ep d sl tp)). now left.
Qed.

(** From the empty ledger, in particular. *)
Lemma opens_of_distinct_symbols_keep_invariant cs :
  Forall is_open cs ->
  NoDup (map call_symbol cs) ->
  total_exposure (run_calls 0 PositionManager_init cs)
  = open_notional (run_calls 0 PositionManager_init cs).
Proof.
  intros Hopen Hnodup. apply opens_of_new_symbols_keep_invariant;
    try assumption; reflexivity.
Qed.

(** Once a position is closed the running total can also drift away from
    the sum by rounding: 0.1 + 0.2 - 0.1 is not 0.2 in binary64. *)
Definition drifted_ledger : PositionManager :=
  run_calls 0 PositionManager_init
    [Open "A" 1 0.1 "long" None None; Open "B" 1 0.2 "long" None None;
     Close "A" 0.1].

(** After the three calls only "B" is open, with a notional of 0.2, and
    the running total is 0.20000000000000004. *)
Example exposure_drifts_by_rounding :
  keys (positions drifted_ledger) = ["B"]
  /\ open_notional drifted_ledger = 0.2
  /\ total_exposure drifted_ledger = 0.20000000000000004
  /\ (total_exposure drifted_ledger =? open_notional drifted_ledger)
     = false.
Proof. repeat split. Qed.

(** ** The loop of [update_positions], entry by entry *)

(** What the body does to the position under [k]: the pnl is recomputed
    when [prices] has [k]. *)
Definition refresh (prices : dict float) (k : string) (p : Position)
  : Position :=
  match get prices k with
  | Some price => Position_update p price
  | None => p
  end.

(** Whether the body closes the position under [k]. *)
Definition fires (prices : dict float) (k : string) (p : Position) : bool :=
  match get prices k with
  | Some price =>
      match check_exit (Position_update p price) price with
      | Some _ => true
      | None => false
      end
  | None => false
  end.

(** The entries after the loop, and the position that was closed if one
    was: [done] are the entries already visited, [todo] those to visit. *)
Fixpoint scan_entries (prices : dict float) (done todo : dict Position)
  : dict Position * option Position :=
  match todo with
  | [] => (done, None)
  | (k, p) :: rest =>
      if fires prices k p then ((done ++ rest)%list, Some p)
      else scan_entries prices (done ++ [(k, refresh prices k p)])%list rest
  end.

Definition finish (self : PositionManager)
    (r : dict Position * option Position) : PositionManager * outcome :=
  match snd r with
  | None => (set_positions self (fst r), Returned)
  | Some p =>
      ({| positions := fst r;
          max_positions := max_positions self;
          total_exposure := total_exposure self - size p * entry_price p;
          max_exposure := max_exposure self |},
       Raised_RuntimeError)
  end.

Lemma finish_set_positions self d r :
  finish (set_positions self d) r = finish self r.
Proof. unfold finish. now destruct (snd r). Qed.

Lemma set_positions_same self : set_positions self (positions self) = self.
Proof. now destruct self. Qed.

Lemma update_loop_scan prices todo : forall done self fuel,
  wf (done ++ todo) ->
  positions self = (done ++ todo)%list ->
  (length todo < fuel)%nat ->
  update_loop fuel prices
              {| di_used := len (done ++ todo); di_pos := length done |} self
  = Some (finish self (scan_entries prices done todo)).
Proof.
  induction todo as [|[k p] rest IH]; intros done self fuel Hwf Hpos Hfuel;
    (destruct fuel as [|fuel]; [lia|]); simpl.
  - unfold iternext. simpl. rewrite Hpos, Nat.eqb_refl. simpl.
    rewrite app_nil_r. replace (nth_error done (length done))
      with (@None (string * Position))
      by (symmetry; apply nth_error_None; lia).
    unfold finish. simpl. rewrite app_nil_r in Hpos.
    now rewrite <- Hpos, set_positions_same.
  - pose proof (wf_app_notin _ _ _ _ Hwf) as Hnotin.
    unfold iternext. simpl. rewrite Hpos, Nat.eqb_refl. simpl.
    rewrite nth_error_app2, Nat.sub_diag by lia. simpl.
    unfold update_body, fires, refresh.
    destruct (get prices k) as [price|].
    + rewrite Hpos, setitem_app_notin by exact Hnotin.
      destruct (check_exit (Position_update p price) price) as [rule|].
      * unfold close_position. simpl.
        rewrite get_app_notin by exact Hnotin. simpl.
        rewrite String.eqb_refl. simpl.
        rewrite delitem_app_notin by exact Hnotin.
        destruct fuel as [|fuel]; [simpl in Hfuel; lia|]. simpl.
        unfold iternext. simpl.
        replace (len (done ++ (k, p) :: rest) =? len (done ++ rest))%nat
          with false; [reflexivity|].
        symmetry. apply Nat.eqb_neq. unfold len. rewrite !length_app.
        simpl. lia.
      * replace (done ++ (k, Position_update p price) :: rest)%list
          with ((done ++ [(k, Position_update p price)]) ++ rest)%list
          by (now rewrite <- app_assoc).
        replace (len (done ++ (k, p) :: rest))
          with (len ((done ++ [(k, Position_update p price)]) ++ rest))
          by (unfold len; rewrite <- app_assoc, !length_app; reflexivity).
        replace (S (length done))
          with (length (done ++ [(k, Position_update p price)]))
          by (rewrite length_app; simpl; lia).
        rewrite IH.
        -- now rewrite finish_set_positions.
        -- eapply wf_rebind; eassumption.
        -- reflexivity.
        -- simpl in Hfuel. lia.
    + replace (len (done ++ (k, p) :: rest))
        with (len ((done ++ [(k, p)]) ++ rest))
        by (now rewrite <- app_assoc).
      replace (S (length done)) with (length (done ++ [(k, p)]))
        by (rewrite length_app; simpl; lia).
      apply IH.
      * eapply wf_rebind; eassumption.
      * now rewrite <- app_assoc.
      * simpl in Hfuel. lia.
Qed.

(** [update_positions] always ends, and ends as the scan says. *)
Lemma update_positions_scan self prices :
  wf (positions self) ->
  update_positions self prices
  = Some (finish self (scan_entries prices [] (positions self))).
Proof.
  intros Hwf. unfold update_positions, items.
  apply (update_loop_scan prices (positions self) [] self); simpl;
    [exact Hwf | reflexivity | unfold len; lia].
Qed.

Definition refresh_all (prices : dict float) (d : dict Position)
  : dict Position :=
  map (fun kv => (fst kv, refresh prices (fst kv) (snd kv))) d.

Lemma scan_entries_no_exit prices todo : forall done,
  (forall k p, In (k, p) todo -> fires prices k p = false) ->
  scan_entries prices done todo = (done ++ refresh_all prices todo, None).
Proof.
  induction todo as [|[k p] rest IH]; intros done Hquiet; simpl.
  - now rewrite app_nil_r.
  - rewrite (Hquiet k p) by now left.
    rewrite IH by (intros k' p' Hin; apply Hquiet; now right).
    now rewrite <- app_assoc.
Qed.

Lemma scan_entries_first_exit prices before k p after : forall done,
  (forall k' p', In (k', p') before -> fires prices k' p' = false) ->
  fires prices k p = true ->
  scan_entries prices done (before ++ (k, p) :: after)
  = (done ++ refresh_all prices before ++ after, Some p).
Proof.
  induction before as [|[k0 p0] before IH]; intros done Hquiet Hfires;
    simpl.
  - now rewrite Hfires.
  - rewrite (Hquiet k0 p0) by now left.
    rewrite IH; [|intros k' p' Hin; apply Hquiet; now right|exact Hfires].
    now rewrite <- app_assoc.
Qed.

(** When no exit condition holds, the call returns, every position whose
    symbol has a price has its pnl recomputed, and nothing else changes. *)
Lemma update_positions_without_exit self prices :
  wf (positions self) ->
  (forall k p, In (k, p) (positions self) -> fires prices k p = false) ->
  update_positions self prices
  = Some (set_positions self (refresh_all prices (positions self)),
          Returned).
Proof.
  intros Hwf Hquiet. rewrite update_positions_scan by exact Hwf.
  now rewrite scan_entries_no_exit.
Qed.

(** When an exit condition holds for some position, the first such
    position in the order of the dictionary is closed, the positions
    before it have their pnl recomputed, the positions after it are not
    visited, and the call raises. *)
Lemma update_positions_first_exit self prices before k p after :
  wf (positions self) ->
  positions self = before ++ (k, p) :: after ->
  (forall k' p', In (k', p') before -> fires prices k' p' = false) ->
  fires prices k p = true ->
  update_positions self prices
  = Some ({| positions := refresh_all prices before ++ after;
             max_positions := max_positions self;
             total_exposure :=
               total_exposure self - size p * entry_price p;
             max_exposure := max_exposure self |},
          Raised_RuntimeError).
Proof.
  intros Hwf Hpos Hquiet Hfires. rewrite update_positions_scan by exact Hwf.
  rewrite Hpos, scan_entries_first_exit by assumption. reflexivity.
Qed.

(** A position with no stop-loss and no take-profit in force never meets
    an exit condition. *)
Lemma check_exit_without_levels p price :
  truthy (stop_loss p) = false -> truthy (take_profit p) = false ->
  check_exit p price = None.
Proof. intros Hsl Htp. unfold check_exit. now rewrite Hsl, Htp. Qed.

(** A long position with a stop-loss at 90 and a long position with no
    exit level, one unit at 100 each. *)
Definition stop_and_hold_ledger : PositionManager :=
  run_calls 0 PositionManager_init
    [Open "A" 1 100 "long" (Some 90) None;
     Open "B" 1 100 "long" None None].

(** Two long positions with a stop-loss at 90 each. *)
Definition two_stops_ledger : PositionManager :=
  run_calls 0 PositionManager_init
    [Open "A" 1 100 "long" (Some 90) None;
     Open "B" 1 100 "long" (Some 90) None].

(** C4, at the failing inputs. With prices 80 for "A" and 120 for "B",
    [update_positions] closes "A" and then raises: the pnl of "B" is
    still 0, not 20. With both stop-losses breached at 80, "A" is closed
    and "B" stays open, its pnl not recomputed. When no exit condition
    holds (95 and 120) the call returns with both pnl recomputed. *)
Theorem update_positions_stops_at_first_close :
  (exists self',
     update_positions stop_and_hold_ledger [("A", 80); ("B", 120)]
     = Some (self', Raised_RuntimeError)
     /\ keys (positions self') = ["B"]
     /\ option_map pnl (get (positions self') "B") = Some 0
     /\ total_exposure self' = 100)
  /\
  (exists self',
     update_positions two_stops_ledger [("A", 80); ("B", 80)]
     = Some (self', Raised_RuntimeError)
     /\ keys (positions self') = ["B"]
     /\ option_map pnl (get (positions self') "B") = Some 0
     /\ option_map (fun p => check_exit (Position_update p 80) 80)
                   (get (positions self') "B")
        = Some (Some StopLossLong))
  /\
  (exists self',
     update_positions stop_and_hold_ledger [("A", 95); ("B", 120)]
     = Some (self', Returned)
     /\ keys (positions self') = ["A"; "B"]
     /\ option_map pnl (get (positions self') "A") = Some (-5)
     /\ option_map pnl (get (positions self') "B") = Some 20).
Proof.
  split; [|split]; eexists; (split; [reflexivity|]); repeat split.
Qed.

(** ** Exit levels set to zero *)

Definition set_stop_loss (self : Position) (v : option float) : Position :=
  {| symbol := symbol self; size := size self;
     entry_price := entry_price self; direction := direction self;
     stop_loss := v; take_profit := take_profit self;
     entry_time := entry_time self; pnl := pnl self;
     status := status self |}.

Definition set_take_profit (self : Position) (v : option float)
  : Position :=
  {| symbol := symbol self; size := size self;
     entry_price := entry_price self; direction := direction self;
     stop_loss := stop_loss self; take_profit := v;
     entry_time := entry_time self; pnl := pnl self;
     status := status self |}.

(** The position with a stop-loss (a take-profit) of zero taken out. *)
Definition unset_stop_loss (p : Position) : Position :=
  if truthy (stop_loss p) then p else set_stop_loss p None.

Definition unset_take_profit (p : Position) : Position :=
  if truthy (take_profit p) then p else set_take_profit p None.

(** The ledger with [f] applied to every open position. *)
Definition map_ledger (f : Position -> Position) (self : PositionManager)
  : PositionManager :=
  set_positions self (map_values f (positions self)).

Section Simulation.
Variable f : Position -> Position.
Hypothesis f_check :
  forall p price, check_exit (f p) price = check_exit p price.
Hypothesis f_update :
  forall p x, Position_update (f p) x = f (Position_update p x).
Hypothesis f_size : forall p, size (f p) = size p.
Hypothesis f_entry_price : forall p, entry_price (f p) = entry_price p.

Lemma update_body_map self prices k p :
  update_body (map_ledger f self) prices k (f p)
  = map_ledger f (update_body self prices k p).
Proof.
  unfold update_body. destruct (get prices k) as [price|]; [|reflexivity].
  simpl. rewrite f_update, setitem_map_values, f_check.
  destruct (check_exit (Position_update p price) price); [|reflexivity].
  unfold close_position. simpl. rewrite get_map_values.
  destruct (get (setitem (positions self) k (Position_update p price)) k)
    as [q|]; simpl; [|reflexivity].
  unfold map_ledger, set_positions. simpl.
  now rewrite delitem_map_values, f_size, f_entry_price.
Qed.

Lemma update_loop_map prices fuel : forall it self,
  update_loop fuel prices it (map_ledger f self)
  = option_map (fun r => (map_ledger f (fst r), snd r))
               (update_loop fuel prices it self).
Proof.
  induction fuel as [|fuel IH]; intros it self; simpl; [reflexivity|].
  rewrite iternext_map_values.
  destruct (iternext (positions self) it) as [k p it'| |];
    try reflexivity.
  now rewrite update_body_map, IH.
Qed.

Lemma update_positions_map self prices :
  update_positions (map_ledger f self) prices
  = option_map (fun r => (map_ledger f (fst r), snd r))
               (update_positions self prices).
Proof.
  unfold update_positions, items.
  change (positions (map_ledger f self))
    with (map_values f (positions self)).
  rewrite len_map_values. apply update_loop_map.
Qed.
End Simulation.

Lemma truthy_zero z : (z =? 0) = true -> truthy (Some z) = false.
Proof. intros H. simpl. now rewrite H. Qed.

Lemma check_exit_unset_stop_loss p price :
  check_exit (unset_stop_loss p) price = check_exit p price.
Proof.
  unfold unset_stop_loss. destruct (truthy (stop_loss p)) eqn:Hsl;
    [reflexivity|].
  unfold check_exit. simpl. now rewrite Hsl.
Qed.

Lemma check_exit_unset_take_profit p price :
  check_exit (unset_take_profit p) price = check_exit p price.
Proof.
  unfold unset_take_profit. destruct (truthy (take_profit p)) eqn:Htp;
    [reflexivity|].
  unfold check_exit. simpl. rewrite Htp. reflexivity.
Qed.

Lemma check_exit_stop_loss_truthy p price rule :
  check_exit p price = Some rule ->
  rule = StopLossLong \/ rule = StopLossShort ->
  truthy (stop_loss p) = true.
Proof.
  unfold check_exit. destruct (truthy (stop_loss p)); [reflexivity|].
  simpl.
  destruct (truthy (take_profit p) && (direction p =? "long")%string
            && price_ge price (take_profit p));
    [intros [= <-] [H|H]; discriminate|].
  destruct (truthy (take_profit p) && (direction p =? "short")%string
            && price_le price (take_profit p));
    [intros [= <-] [H|H]; discriminate | discriminate].
Qed.

Lemma check_exit_take_profit_truthy p price rule :
  check_exit p price = Some rule ->
  rule = TakeProfitLong \/ rule = TakeProfitShort ->
  truthy (take_profit p) = true.
Proof.
  unfold check_exit. destruct (truthy (take_profit p)); [reflexivity|].
  simpl.
  destruct (truthy (stop_loss p) && (direction p =? "long")%string
            && price_le price (stop_loss p));
    [intros [= <-] [H|H]; discriminate|].
  destruct (truthy (stop_loss p) && (direction p =? "short")%string
            && price_ge price (stop_loss p));
    [intros [= <-] [H|H]; discriminate | discriminate].
Qed.

Lemma unset_stop_loss_update p x :
  Position_update (unset_stop_loss p) x
  = unset_stop_loss (Position_update p x).
Proof.
  unfold unset_stop_loss. simpl. now destruct (truthy (stop_loss p)).
Qed.

Lemma unset_take_profit_update p x :
  Position_update (unset_take_profit p) x
  = unset_take_profit (Position_update p x).
Proof.
  unfold unset_take_profit. simpl. now destruct (truthy (take_profit p)).
Qed.

Lemma unset_stop_loss_notional p :
  size (unset_stop_loss p) = size p
  /\ entry_price (unset_stop_loss p) = entry_price p.
Proof. unfold unset_stop_loss. now destruct (truthy (stop_loss p)). Qed.

Lemma unset_take_profit_notional p :
  size (unset_take_profit p) = size p
  /\ entry_price (unset_take_profit p) = entry_price p.
Proof. unfold unset_take_profit. now destruct (truthy (take_profit p)). Qed.

(** C10. A stop-loss (a take-profit) of zero counts as not set: on every
    ledger and every price map, [update_positions] does to the ledger
    with the zero levels replaced by [None] what it does to the ledger
    itself, with the same outcome; and a position whose stop-loss
    (take-profit) is zero is never closed by the stop-loss (take-profit)
    branches, whatever the price. *)
Theorem zero_exit_level_is_not_configured :
  forall self prices,
    update_positions (map_ledger unset_stop_loss self) prices
    = option_map (fun r => (map_ledger unset_stop_loss (fst r), snd r))
                 (update_positions self prices)
    /\ update_positions (map_ledger unset_take_profit self) prices
       = option_map (fun r => (map_ledger unset_take_profit (fst r), snd r))
                    (update_positions self prices)
    /\ (forall p z price,
          stop_loss p = Some z -> (z =? 0) = true ->
          unset_stop_loss p = set_stop_loss p None
          /\ check_exit p price <> Some StopLossLong
          /\ check_exit p price <> Some StopLossShort)
    /\ (forall p z price,
          take_profit p = Some z -> (z =? 0) = true ->
          unset_take_profit p = set_take_profit p None
          /\ check_exit p price <> Some TakeProfitLong
          /\ check_exit p price <> Some TakeProfitShort).
Proof.
  intros self prices. split; [|split; [|split]].
  - apply update_positions_map.
    + apply check_exit_unset_stop_loss.
    + apply unset_stop_loss_update.
    + apply unset_stop_loss_notional.
    + apply unset_stop_loss_notional.
  - apply update_positions_map.
    + apply check_exit_unset_take_profit.
    + apply unset_take_profit_update.
    + apply unset_take_profit_notional.
    + apply unset_take_profit_notional.
  - intros p z price Hsl Hz.
    assert (Hfalse : truthy (stop_loss p) = false)
      by (rewrite Hsl; now apply truthy_zero).
    split; [unfold unset_stop_loss; now rewrite Hfalse|].
    split; intros Hexit;
      apply check_exit_stop_loss_truthy in Hexit; auto; congruence.
  - intros p z price Htp Hz.
    assert (Hfalse : truthy (take_profit p) = false)
      by (rewrite Htp; now apply truthy_zero).
    split; [unfold unset_take_profit; now rewrite Hfalse|].
    split; intros Hexit;
      apply check_exit_take_profit_truthy in Hexit; auto; congruence.
Qed.

(** A long position entered at 100 with a stop-loss of 0, and the same
    with a stop-loss of 50. *)
Definition zero_stop_ledger : PositionManager :=
  run_calls 0 PositionManager_init [Open "A" 1 100 "long" (Some 0) None].

Definition fifty_stop_ledger : PositionManager :=
  run_calls 0 PositionManager_init [Open "A" 1 100 "long" (Some 50) None].

(** The position of [zero_stop_ledger]. *)
Definition zero_stop_position : Position :=
  Position_init 0 "A" 1 100 "long" (Some 0) None.

(** On that ledger at a price of 0: the stop-loss is 0, the price is not
    above it, and the stop-loss branch is not taken; the call does the same
    with the stop-loss replaced by [None]. *)
Lemma zero_exit_level_is_not_configured_witness :
  get (positions zero_stop_ledger) "A" = Some zero_stop_position
  /\ stop_loss zero_stop_position = Some 0
  /\ price_le 0 (stop_loss zero_stop_position) = true
  /\ check_exit zero_stop_position 0 <> Some StopLossLong
  /\ update_positions (map_ledger unset_stop_loss zero_stop_ledger)
                      [("A", 0)]
     = option_map (fun r => (map_ledger unset_stop_loss (fst r), snd r))
                  (update_positions zero_stop_ledger [("A", 0)]).
Proof.
  split; [reflexivity|]. split; [reflexivity|]. split; [reflexivity|].
  pose proof (zero_exit_level_is_not_configured
                zero_stop_ledger [("A", 0)]) as (Hsim & _ & Hstop & _).
  split; [|exact Hsim].
  apply (Hstop zero_stop_position 0 0); reflexivity.
Defined.

(** At a price of 0 the stop-loss of 50 closes the position; the
    stop-loss of 0 does not, although [0 <= 0]. *)
Example zero_stop_loss_does_not_close :
  (exists self',
     update_positions zero_stop_ledger [("A", 0)] = Some (self', Returned)
     /\ option_map pnl (get (positions self') "A") = Some (-100))
  /\ (exists self',
        update_positions fifty_stop_ledger [("A", 0)]
        = Some (self', Raised_RuntimeError)
        /\ positions self' = []).
Proof. split; eexists; (split; [reflexivity|]); reflexivity. Qed.

End PositionLedgerFacts.

(* ================================================================== *)
(** * The system monitor: history buffer and sampling tasks *)

Module MonitorFacts.
Import Monitor.

Section History.
Variable Metrics : Type.
Implicit Types (self : SystemMonitor Metrics) (metrics : Metrics).

Lemma store_metrics_capacity self metrics :
  max_history_size (store_metrics self metrics) = max_history_size self.
Proof. reflexivity. Qed.

Lemma store_metrics_below self metrics :
  length (metrics_history self) < max_history_size self ->
  metrics_history (store_metrics self metrics)
  = metrics_history self ++ [metrics].
Proof.
  intros Hlt. unfold store_metrics. simpl.
  replace (max_history_size self
           <? length (metrics_history self ++ [metrics])) with false;
    [reflexivity|].
  symmetry. apply Nat.ltb_ge. rewrite length_app. simpl. lia.
Qed.

Lemma store_metrics_full self metrics :
  length (metrics_history self) = max_history_size self ->
  metrics_history (store_metrics self metrics)
  = tl (metrics_history self ++ [metrics]).
Proof.
  intros Hfull. unfold store_metrics. simpl.
  replace (max_history_size self
           <? length (metrics_history self ++ [metrics])) with true;
    [reflexivity|].
  symmetry. apply Nat.ltb_lt. rewrite length_app. simpl. lia.
Qed.

Lemma tl_app_nonempty (l : list Metrics) x :
  l <> [] -> tl (l ++ [x]) = tl l ++ [x].
Proof. destruct l; [contradiction | reflexivity]. Qed.

Lemma store_metrics_bounded self metrics :
  length (metrics_history self) <= max_history_size self ->
  length (metrics_history (store_metrics self metrics))
  <= max_history_size self.
Proof.
  intros Hle. apply Nat.lt_eq_cases in Hle. destruct Hle as [Hlt|Heq].
  - rewrite store_metrics_below by exact Hlt. rewrite length_app.
    simpl. lia.
  - rewrite store_metrics_full by exact Heq.
    destruct (metrics_history self) as [|m l]; simpl in *.
    + lia.
    + rewrite length_app. simpl. lia.
Qed.

Lemma run_ticks_capacity samples : forall self,
  max_history_size (run_ticks self samples) = max_history_size self.
Proof.
  unfold run_ticks.
  induction samples as [|m samples IH]; intros self; simpl;
    [reflexivity|].
  now rewrite IH.
Qed.

Lemma run_ticks_bounded samples : forall self,
  length (metrics_history self) <= max_history_size self ->
  length (metrics_history (run_ticks self samples))
  <= max_history_size self.
Proof.
  unfold run_ticks.
  induction samples as [|m samples IH]; intros self Hle; simpl;
    [exact Hle|].
  rewrite <- (store_metrics_capacity self m). apply IH.
  rewrite store_metrics_capacity. now apply store_metrics_bounded.
Qed.
Lemma run_ticks_app self samples metrics :
  run_ticks self (samples ++ [metrics])
  = store_metrics (run_ticks self samples) metrics.
Proof. unfold run_ticks. now rewrite fold_left_app. Qed.

Lemma tl_skipn (l : list Metrics) : forall k, tl (skipn k l) = skipn (S k) l.
Proof.
  induction l as [|a l IH]; intros [|k]; simpl; try reflexivity.
  apply IH.
Qed.

(** From an empty history, the buffer holds the latest
    [max_history_size] snapshots, oldest first. *)
Lemma run_ticks_keeps_latest self0 samples :
  metrics_history self0 = [] ->
  0 < max_history_size self0 ->
  metrics_history (run_ticks self0 samples)
  = skipn (length samples - max_history_size self0) samples.
Proof.
  intros Hempty Hcap.
  induction samples as [|m samples IH] using rev_ind.
  - simpl. exact Hempty.
  - rewrite run_ticks_app.
    pose proof (run_ticks_capacity samples self0) as Hsame.
    assert (Hlen : length (metrics_history (run_ticks self0 samples))
                   = length samples
                     - (length samples - max_history_size self0))
      by (rewrite IH; apply length_skipn).
    rewrite length_app. change (length [m]) with 1.
    destruct (Nat.lt_ge_cases (length samples) (max_history_size self0))
      as [Hlt|Hge].
    + rewrite store_metrics_below by (rewrite Hsame; lia). rewrite IH.
      replace (length samples - max_history_size self0) with 0 by lia.
      replace (length samples + 1 - max_history_size self0) with 0 by lia.
      reflexivity.
    + rewrite store_metrics_full by (rewrite Hsame; lia).
      rewrite tl_app_nonempty
        by (intros Hnil; rewrite Hnil in Hlen; simpl in Hlen; lia).
      rewrite IH, tl_skipn, skipn_app.
      replace (length samples + 1 - max_history_size self0)
        with (S (length samples - max_history_size self0)) by lia.
      replace (S (length samples - max_history_size self0) - length samples)
        with 0 by lia.
      reflexivity.
Qed.
End History.

(** C8. From a monitor with an empty history and a capacity of at least
    one, after any number of sampling ticks the history is no longer than
    [max_history_size], and so it is after one more tick; the new
    snapshot is then the last entry; if the history was full, the tick
    dropped its first (oldest) entry and kept the others in order; if it
    was not, the tick dropped nothing. *)
Theorem history_bounded_fifo :
  forall (Metrics : Type) (self0 : SystemMonitor Metrics)
         (samples : list Metrics) (metrics : Metrics),
    metrics_history self0 = [] ->
    0 < max_history_size self0 ->
    length (metrics_history (run_ticks self0 samples))
    <= max_history_size self0
    /\ length (metrics_history
                 (store_metrics (run_ticks self0 samples) metrics))
       <= max_history_size self0
    /\ (exists older,
          metrics_history (store_metrics (run_ticks self0 samples) metrics)
          = older ++ [metrics])
    /\ (length (metrics_history (run_ticks self0 samples))
        = max_history_size self0 ->
        exists oldest kept,
          metrics_history (run_ticks self0 samples) = oldest :: kept
          /\ metrics_history
               (store_metrics (run_ticks self0 samples) metrics)
             = kept ++ [metrics])
    /\ (length (metrics_history (run_ticks self0 samples))
        < max_history_size self0 ->
        metrics_history (store_metrics (run_ticks self0 samples) metrics)
        = metrics_history (run_ticks self0 samples) ++ [metrics]).
Proof.
  intros Metrics self0 samples metrics Hempty Hcap.
  assert (Hbound : length (metrics_history (run_ticks self0 samples))
                   <= max_history_size self0).
  { apply run_ticks_bounded. rewrite Hempty. simpl. lia. }
  pose proof (run_ticks_capacity samples self0) as Hsame.
  assert (Hfull : length (metrics_history (run_ticks self0 samples))
                  = max_history_size self0 ->
                  exists oldest kept,
                    metrics_history (run_ticks self0 samples)
                    = oldest :: kept
                    /\ metrics_history
                         (store_metrics (run_ticks self0 samples) metrics)
                       = kept ++ [metrics]).
  { intros Heq. rewrite store_metrics_full by now rewrite Hsame.
    destruct (metrics_history (run_ticks self0 samples)) as [|m l].
    - simpl in Heq. lia.
    - exists m, l. split; reflexivity. }
  assert (Hbelow : length (metrics_history (run_ticks self0 samples))
                   < max_history_size self0 ->
                   metrics_history
                     (store_metrics (run_ticks self0 samples) metrics)
                   = metrics_history (run_ticks self0 samples)
                     ++ [metrics]).
  { intros Hlt. apply store_metrics_below. now rewrite Hsame. }
  split; [exact Hbound|].
  split; [rewrite <- Hsame; apply store_metrics_bounded;
          now rewrite Hsame|].
  split; [|split; assumption].
  apply Nat.lt_eq_cases in Hbound. destruct Hbound as [Hlt|Heq].
  - eexists. now apply Hbelow.
  - destruct (Hfull Heq) as (oldest & kept & _ & Hnew).
    eexists. exact Hnew.
Qed.

(** The monitor as constructed (capacity 1000) after 1000 ticks, and the
    tick after that. *)
Lemma history_bounded_fifo_witness :
  metrics_history (SystemMonitor_init nat) = []
  /\ 0 < max_history_size (SystemMonitor_init nat)
  /\ length (metrics_history (run_ticks (SystemMonitor_init nat)
                                        (seq 0 1000))) = 1000
  /\ length (metrics_history
               (store_metrics (run_ticks (SystemMonitor_init nat)
                                         (seq 0 1000)) 1000))
     <= max_history_size (SystemMonitor_init nat)
  /\ metrics_history
       (store_metrics (run_ticks (SystemMonitor_init nat) (seq 0 1000))
                      1000)
     = seq 1 1000.
Proof.
  split; [reflexivity|]. split; [simpl; lia|].
  split; [vm_compute; reflexivity|].
  split; [|vm_compute; reflexivity].
  apply (history_bounded_fifo (SystemMonitor_init nat) (seq 0 1000) 1000).
  - reflexivity.
  - simpl. lia.
Defined.

(** ** Starting the monitor *)

(** The monitor started once, and started a second time. *)
Definition started_once : Runtime nat :=
  start_monitoring (Runtime_init nat).

Definition started_twice : Runtime nat := start_monitoring started_once.







End MonitorFacts.

(* ================================================================== *)
(** * The risk calculator: Sharpe ratio of a short series *)

Module RiskFacts.
Import Risk.
Local Open Scope float_scope.

(** C9. On fewer than two returns [calculate_sharpe_ratio] is 0.0,
    whatever the returns and the risk-free rate. *)
Theorem sharpe_ratio_of_short_series :
  forall (returns : list float) (risk_free_rate : float),
    (length returns < 2)%nat ->
    calculate_sharpe_ratio returns risk_free_rate = 0.
Proof.
  intros returns risk_free_rate Hshort. unfold calculate_sharpe_ratio.
  rewrite length_map. apply Nat.ltb_lt in Hshort. now rewrite Hshort.
Qed.

(** One return of 0.5, and no return at all, at the default rate. *)
Lemma sharpe_ratio_of_short_series_witness :
  (length [0.5%float] < 2)%nat
  /\ calculate_sharpe_ratio [0.5] default_risk_free_rate = 0
  /\ calculate_sharpe_ratio [] default_risk_free_rate = 0.
Proof.
  split; [simpl; lia|]. split.
  - apply sharpe_ratio_of_short_series. simpl. lia.
  - apply sharpe_ratio_of_short_series. simpl. lia.
Defined.

(** Two returns are enough for the ratio to be computed. *)
Example sharpe_ratio_of_two_returns :
  (calculate_sharpe_ratio [0.01; 0.03] 0 =? 0) = false.
Proof. reflexivity. Qed.

End RiskFacts.

(* ================================================================== *)
(** * The supervisor: recovery of an agent that is not active *)

Module SupervisorFacts.
Import PyDict Supervisor.
Local Open Scope string_scope.

(** No lowered class name is a key of the table of agent classes. *)
Lemma lowered_class_name_is_no_agent_type (c : AgentClass) :
  get agent_classes (lower (class_name c)) = None.
Proof. destruct c; reflexivity. Qed.

Section AnyAgents.
Variable Config : Type.
Variable construct : AgentClass -> Config -> result (Agent Config).
Variable initialize : Agent Config -> Agent Config * option exn.

(** So recovery's request for a new instance always raises. *)
Lemma create_agent_instance_of_lowered_class_name c config :
  _create_agent_instance construct (lower (class_name c)) config
  = Raise (ValueError ("Unknown agent type: " ++ lower (class_name c))).
Proof.
  unfold _create_agent_instance.
  now rewrite lowered_class_name_is_no_agent_type.
Qed.



(** When the old object is still not active after its [initialize],
    the attempt ends with the error record of the unknown type. *)
Lemma handle_agent_failure_logs_unknown_type agents agent_id agent :
  snd (initialize agent) = None ->
  (status (fst (initialize agent)) =? "active") = false ->
  _handle_agent_failure construct initialize agents agent_id agent
  = (setitem agents agent_id (fst (initialize agent)),
     [Info ("Attempting to recover agent: " ++ agent_id);
      Error ("Failed to recover agent " ++ agent_id
             ++ ": Unknown agent type: "
             ++ lower (class_name (agent_class (fst (initialize agent)))))],
     None).
Proof.
  unfold _handle_agent_failure.
  destruct (initialize agent) as [agent' raised]; simpl.
  intros -> ->. simpl.
  now rewrite create_agent_instance_of_lowered_class_name.
Qed.
End AnyAgents.

(** ** A failed strategy agent *)

(** Agents that come up active when new, and stay as they are once their
    error count has reached [max_errors]. *)
Definition Config : Type := list (string * string).

Definition new_agent (c : AgentClass) (config : Config)
  : result (Agent Config) :=
  Ok {| agent_class := c; id := class_name c ++ "_20240102_000000";
        status := "initialized"; config := config; last_update := 2;
        error_count := 0; max_errors := 3 |}.

Definition come_up (a : Agent Config) : Agent Config * option exn :=
  if (error_count a <? max_errors a)%nat
  then ({| agent_class := agent_class a; id := id a; status := "active";
           config := config a; last_update := last_update a;
           error_count := error_count a; max_errors := max_errors a |},
        None)
  else (a, None).

Definition failed_strategy : Agent Config :=
  {| agent_class := StrategyAgent; id := "StrategyAgent_20240101_000000";
     status := "error"; config := [("timeframe_years", "5")];
     last_update := 1; error_count := 3; max_errors := 3 |}.

Definition registry : dict (Agent Config) := [("strategy", failed_strategy)].

(** The master agent with that registry, its last health check at 0. *)
Definition master : MasterAgent Config :=
  {| agents := registry; last_health_check := 0;
     health_check_interval := 300 |}.

Definition checked_at (current_time : Z) : MasterAgent Config :=
  {| agents := registry; last_health_check := current_time;
     health_check_interval := 300 |}.

(** C6, at the failing input. The registered strategy agent has status
    "error" and its own [initialize] leaves it so; a new [StrategyAgent]
    with the same configuration would come up active. Recovery asks
    [_create_agent_instance] for the type "strategyagent", which is not
    in its table: the [ValueError] is logged, the failed object stays
    registered, and the next health checks, five minutes apart, do the
    same. *)
Theorem recovery_never_builds_replacement :
  (exists fresh,
     new_agent StrategyAgent (config failed_strategy) = Ok fresh
     /\ status (fst (come_up fresh)) = "active")
  /\ lower (class_name (agent_class failed_strategy)) = "strategyagent"
  /\ _handle_agent_failure new_agent come_up registry "strategy"
                           failed_strategy
     = (registry,
        [Info "Attempting to recover agent: strategy";
         Error "Failed to recover agent strategy: Unknown agent type: strategyagent"],
        None)
  /\ run_due_health_check new_agent come_up master 300000000
     = (checked_at 300000000,
        [Info "Running system health checks...";
         Warning "Agent strategy is not active. Status: error";
         Info "Attempting to recover agent: strategy";
         Error "Failed to recover agent strategy: Unknown agent type: strategyagent"],
        None)
  /\ agents (fst (fst (run_due_health_check new_agent come_up master
                                            300000000)))
     = registry
  /\ fst (fst (run_health_checks_pass new_agent come_up
            (fst (fst (run_health_checks_pass new_agent come_up
                    (fst (fst (run_health_checks_pass new_agent come_up
                                 master 300000000)))
                    600000000)))
            900000000))
     = checked_at 900000000.
Proof.
  split; [eexists; split; reflexivity|]. repeat split.
Qed.

End SupervisorFacts.

(* ================================================================== *)
(** * The position ledger: runs with price updates, and its views *)

Module LedgerRuns.
Import PyDict PositionLedger.
Local Open Scope string_scope.

(** One use of the ledger: a call that opens or closes, or a call of
    [update_positions]. When [update_positions] raises, the ledger stays as
    the call left it. *)
Inductive step : Type :=
| Call (c : call)
| Update (prices : dict float).

Definition do_step (now : Z) (self : PositionManager) (s : step)
  : PositionManager :=
  match s with
  | Call c => snd (do_call now self c)
  | Update prices =>
      match update_positions self prices with
      | Some (self', _) => self'
      | None => self
      end
  end.

Fixpoint run_steps (now : Z) (self : PositionManager) (ss : list step)
  : PositionManager :=
  match ss with
  | [] => self
  | s :: ss' => run_steps (now + 1) (do_step now self s) ss'
  end.

(** An element of the list [get_positions] returns: a dictionary with
    these eight keys. *)
Record position_view : Type := mkPositionView {
  view_symbol : string;
  view_size : float;
  view_entry_price : float;
  view_direction : string;
  view_pnl : float;
  view_entry_time : Z;
  view_stop_loss : option float;
  view_take_profit : option float
}.

(** [PositionManager.get_positions]. *)
Definition get_positions (self : PositionManager) : list position_view :=
  map (fun p =>
         {| view_symbol := symbol p; view_size := size p;
            view_entry_price := entry_price p;
            view_direction := direction p; view_pnl := pnl p;
            view_entry_time := entry_time p;
            view_stop_loss := stop_loss p;
            view_take_profit := take_profit p |})
      (values (positions self)).

End LedgerRuns.

Module LedgerRunsFacts.
Import PyDict PyDictFacts PositionLedger PositionLedgerFacts LedgerRuns.
Local Open Scope string_scope.
Local Open Scope list_scope.
Local Open Scope float_scope.

(** ** More on dictionaries *)

Section DictEntries.
Context {V : Type}.
Implicit Types (d : dict V) (k : string) (v : V).
Variable P : string * V -> Prop.

Lemma Forall_setitem d k v :
  Forall P d -> P (k, v) -> Forall P (setitem d k v).
Proof.
  intros Hd Hkv. induction d as [|[k0 v0] d IH]; simpl.
  - constructor; [exact Hkv | constructor].
  - inversion Hd as [|? ? Hhd Htl]; subst.
    destruct (String.eqb k k0); constructor; auto.
Qed.

Lemma Forall_delitem d k : Forall P d -> Forall P (delitem d k).
Proof.
  intros Hd. induction d as [|[k0 v0] d IH]; simpl; [constructor|].
  inversion Hd as [|? ? Hhd Htl]; subst.
  destruct (String.eqb k k0); [exact Htl | constructor; auto].
Qed.
End DictEntries.

Lemma len_setitem_le {V : Type} (d : dict V) k v :
  (len (setitem d k v) <= S (len d))%nat.
Proof.
  destruct (get d k) as [p|] eqn:Hget.
  - rewrite (len_setitem_bound _ _ _ Hget). lia.
  - rewrite (len_setitem_new _ _ _ Hget). lia.
Qed.

Lemma len_delitem_le {V : Type} (d : dict V) k :
  (len (delitem d k) <= len d)%nat.
Proof.
  unfold len. induction d as [|[k0 v0] d IH]; simpl; [lia|].
  destruct (String.eqb k k0); simpl; lia.
Qed.

Lemma delitem_setitem_new {V : Type} (d : dict V) k v :
  get d k = None -> delitem (setitem d k v) k = d.
Proof.
  induction d as [|[k0 v0] d IH]; simpl.
  - now rewrite String.eqb_refl.
  - destruct (String.eqb k k0) eqn:Hk; [discriminate|].
    intros Hget. simpl. rewrite Hk. now rewrite IH.
Qed.

Lemma keys_refresh_all prices (d : dict Position) :
  keys (refresh_all prices d) = keys d.
Proof.
  unfold keys, refresh_all. rewrite map_map. reflexivity.
Qed.

(** ** The two ways the scan of [update_positions] can end *)

Lemma scan_entries_cases prices todo : forall done,
  ((forall k p, In (k, p) todo -> fires prices k p = false)
   /\ scan_entries prices done todo = (done ++ refresh_all prices todo, None))
  \/ (exists before k p after,
        todo = before ++ (k, p) :: after
        /\ (forall k' p', In (k', p') before -> fires prices k' p' = false)
        /\ fires prices k p = true
        /\ scan_entries prices done todo
           = (done ++ refresh_all prices before ++ after, Some p)).
Proof.
  induction todo as [|[k p] rest IH]; intros done.
  - left. split; [intros k p []|]. simpl. now rewrite app_nil_r.
  - destruct (fires prices k p) eqn:Hfires.
    + right. exists [], k, p, rest. simpl. rewrite Hfires.
      repeat split. intros k' p' [].
    + destruct (IH (done ++ [(k, refresh prices k p)]))
        as [[Hquiet Hscan]|(before & k1 & p1 & after & Htodo & Hquiet
                            & Hfires1 & Hscan)].
      * left. split.
        -- intros k' p' [Heq|Hin];
             [inversion Heq; subst; exact Hfires | now apply Hquiet].
        -- simpl. rewrite Hfires, Hscan. now rewrite <- app_assoc.
      * right. exists ((k, p) :: before), k1, p1, after. split; [|split].
        -- simpl. now rewrite Htodo.
        -- intros k' p' [Heq|Hin];
             [inversion Heq; subst; exact Hfires | now apply Hquiet].
        -- split; [exact Hfires1|]. simpl. rewrite Hfires, Hscan.
           now rewrite <- app_assoc.
Qed.

(** ** What every reachable ledger satisfies *)

(** An entry is in order when it is bound under its own symbol and its
    status is "open". *)
Definition entry_ok (kv : string * Position) : Prop :=
  symbol (snd kv) = fst kv /\ status (snd kv) = "open".

Definition ledger_ok (self : PositionManager) : Prop :=
  wf (positions self)
  /\ (len (positions self) <= max_positions self)%nat
  /\ Forall entry_ok (positions self).

Lemma open_position_ok now self sym size entry_price direction sl tp :
  ledger_ok self ->
  ledger_ok (snd (open_position now self sym size entry_price
                                direction sl tp)).
Proof.
  intros (Hwf & Hlen & Hall). unfold open_position.
  destruct (max_positions self <=? len (positions self))%nat eqn:Hmax;
    [now repeat split|].
  destruct (max_exposure self <? total_exposure self + size * entry_price);
    [now repeat split|].
  apply Nat.leb_gt in Hmax. simpl. split; [|split]; simpl.
  - now apply wf_setitem.
  - pose proof (len_setitem_le (positions self) sym
                  (Position_init now sym size entry_price direction sl tp)).
    lia.
  - apply Forall_setitem; [exact Hall|]. now split.
Qed.

Lemma close_position_ok self sym exit_price :
  ledger_ok self ->
  ledger_ok (snd (fst (close_position self sym exit_price))).
Proof.
  intros (Hwf & Hlen & Hall). unfold close_position.
  destruct (get (positions self) sym); simpl; [|now repeat split].
  split; [|split]; simpl.
  - now apply wf_delitem.
  - pose proof (len_delitem_le (positions self) sym). lia.
  - now apply Forall_delitem.
Qed.

Lemma refresh_all_ok prices (d : dict Position) :
  Forall entry_ok d -> Forall entry_ok (refresh_all prices d).
Proof.
  unfold refresh_all. intros Hall. apply Forall_map.
  eapply Forall_impl; [|exact Hall].
  intros [k p] [Hsym Hstatus]. unfold entry_ok, refresh. simpl in *.
  now destruct (get prices k).
Qed.

Lemma update_positions_ok self prices r :
  ledger_ok self ->
  update_positions self prices = Some r ->
  ledger_ok (fst r)
  /\ max_positions (fst r) = max_positions self
  /\ max_exposure (fst r) = max_exposure self.
Proof.
  intros (Hwf & Hlen & Hall) Hrun.
  rewrite update_positions_scan in Hrun by exact Hwf.
  injection Hrun as <-.
  destruct (scan_entries_cases prices (positions self) [])
    as [[_ Hscan]|(before & k & p & after & Hpos & _ & _ & Hscan)];
    rewrite Hscan; unfold finish, ledger_ok; simpl.
  - repeat split.
    + unfold wf. now rewrite keys_refresh_all.
    + unfold len, refresh_all. now rewrite length_map.
    + now apply refresh_all_ok.
  - rewrite Hpos in Hwf, Hlen, Hall. repeat split.
    + unfold wf, keys in *. rewrite map_app in *.
      fold (keys (refresh_all prices before)).
      rewrite keys_refresh_all. simpl in Hwf.
      now apply NoDup_remove_1 in Hwf.
    + unfold len, refresh_all in *. rewrite length_app in *.
      rewrite length_map. simpl in Hlen. lia.
    + apply Forall_app in Hall. destruct Hall as [Hbefore Hafter].
      apply Forall_app. split; [now apply refresh_all_ok|].
      now inversion Hafter.
Qed.

Lemma open_position_limits now self sym size entry_price direction sl tp :
  max_positions (snd (open_position now self sym size entry_price
                                    direction sl tp)) = max_positions self
  /\ max_exposure (snd (open_position now self sym size entry_price
                                      direction sl tp)) = max_exposure self.
Proof.
  unfold open_position.
  destruct (max_positions self <=? len (positions self))%nat; [now split|].
  now destruct (max_exposure self
                <? total_exposure self + size * entry_price).
Qed.

Lemma close_position_limits self sym exit_price :
  max_positions (snd (fst (close_position self sym exit_price)))
  = max_positions self
  /\ max_exposure (snd (fst (close_position self sym exit_price)))
     = max_exposure self.
Proof. unfold close_position. now destruct (get (positions self) sym). Qed.

Lemma do_step_ok now self s :
  ledger_ok self ->
  ledger_ok (do_step now self s)
  /\ max_positions (do_step now self s) = max_positions self
  /\ max_exposure (do_step now self s) = max_exposure self.
Proof.
  intros Hok. destruct s as [[sym sz ep d sl tp|sym xp]|prices]; simpl.
  - split; [now apply open_position_ok | apply open_position_limits].
  - split; [now apply close_position_ok | apply close_position_limits].
  - destruct (update_positions self prices) as [[self' o]|] eqn:Hrun;
      [|split; [exact Hok | split; reflexivity]].
    change self' with (fst (self', o)).
    eapply update_positions_ok; [exact Hok | exact Hrun].
Qed.

Lemma run_steps_ok ss : forall now self,
  ledger_ok self ->
  ledger_ok (run_steps now self ss)
  /\ max_positions (run_steps now self ss) = max_positions self
  /\ max_exposure (run_steps now self ss) = max_exposure self.
Proof.
  induction ss as [|s ss IH]; intros now self Hok; simpl;
    [split; [exact Hok | split; reflexivity]|].
  destruct (do_step_ok now s Hok) as (Hok' & Hmp & Hme).
  destruct (IH (now + 1)%Z _ Hok') as (Hok'' & Hmp' & Hme').
  repeat split; try apply Hok''; congruence.
Qed.

Lemma new_ledger_ok : ledger_ok PositionManager_init.
Proof.
  split; [apply wf_nil|]. split; [simpl; lia | constructor].
Qed.

Lemma get_In {V : Type} (d : dict V) k v : get d k = Some v -> In (k, v) d.
Proof.
  induction d as [|[k0 v0] d IH]; simpl; [discriminate|].
  destruct (String.eqb_spec k k0) as [->|Hne].
  - intros [= ->]. now left.
  - intros Hget. right. now apply IH.
Qed.

(** The number of open positions never exceeds the limit of 10, and the
    two limits stay what the constructor made them, whatever sequence of
    [open_position], [close_position] and [update_positions] calls a new
    ledger goes through. *)
Theorem position_count_never_exceeds_limit :
  forall steps : list step,
    (get_position_count (run_steps 0 PositionManager_init steps) <= 10)%nat
    /\ max_positions (run_steps 0 PositionManager_init steps) = 10%nat
    /\ max_exposure (run_steps 0 PositionManager_init steps) = 100000.
Proof.
  intros steps.
  destruct (run_steps_ok steps 0 new_ledger_ok)
    as ((_ & Hlen & _) & Hmp & Hme).
  unfold get_position_count. rewrite Hmp in Hlen. simpl in *.
  repeat split; assumption.
Qed.

(** In every ledger reached from a new one, each open position is bound
    under its own symbol with status "open", and [get_positions] lists the
    open symbols in the order of the dictionary, each symbol once, as many
    as [get_position_count] says. *)
Theorem get_positions_lists_each_open_symbol_once :
  forall steps : list step,
    map view_symbol (get_positions (run_steps 0 PositionManager_init steps))
    = keys (positions (run_steps 0 PositionManager_init steps))
    /\ NoDup (map view_symbol
                 (get_positions (run_steps 0 PositionManager_init steps)))
    /\ length (get_positions (run_steps 0 PositionManager_init steps))
       = get_position_count (run_steps 0 PositionManager_init steps)
    /\ (forall k p,
          get (positions (run_steps 0 PositionManager_init steps)) k = Some p ->
          symbol p = k /\ status p = "open").
Proof.
  intros steps.
  destruct (run_steps_ok steps 0 new_ledger_ok) as ((Hwf & _ & Hall) & _).
  set (self := run_steps 0 PositionManager_init steps) in *.
  assert (Hsyms : map view_symbol (get_positions self)
                  = keys (positions self)).
  { unfold get_positions, values, keys. rewrite !map_map. simpl.
    apply map_ext_in. intros [k p] Hin.
    rewrite Forall_forall in Hall. now destruct (Hall _ Hin). }
  split; [exact Hsyms|]. split; [rewrite Hsyms; exact Hwf|].
  split.
  - unfold get_positions, get_position_count, values, len.
    now rewrite !length_map.
  - intros k p Hget. apply get_In in Hget.
    rewrite Forall_forall in Hall. exact (Hall _ Hget).
Qed.

(** ** Price updates *)

Lemma refresh_all_unpriced prices (d : dict Position) :
  (forall k, In k (keys d) -> get prices k = None) ->
  refresh_all prices d = d.
Proof.
  intros Hnone. unfold refresh_all.
  rewrite <- (map_id d) at 2. apply map_ext_in. intros [k p] Hin.
  unfold refresh. simpl. rewrite Hnone; [reflexivity|].
  unfold keys. now apply (in_map fst) in Hin.
Qed.

(** A price map that has none of the open symbols (the empty map, for
    one) makes [update_positions] return with the ledger as it was. *)
Theorem update_positions_without_prices :
  forall self prices,
    wf (positions self) ->
    (forall k, In k (keys (positions self)) -> get prices k = None) ->
    update_positions self prices = Some (self, Returned).
Proof.
  intros self prices Hwf Hnone.
  rewrite update_positions_scan by exact Hwf.
  rewrite scan_entries_no_exit.
  - simpl. rewrite refresh_all_unpriced by exact Hnone.
    unfold finish. simpl. now rewrite set_positions_same.
  - intros k p Hin. unfold fires. rewrite Hnone; [reflexivity|].
    unfold keys. now apply (in_map fst) in Hin.
Qed.

(** The two-position ledger and a price for a symbol that is not open. *)
Lemma update_positions_without_prices_witness :
  wf (positions stop_and_hold_ledger)
  /\ get [("C", 50)] "A" = None /\ get [("C", 50)] "B" = None
  /\ update_positions stop_and_hold_ledger [("C", 50)]
     = Some (stop_and_hold_ledger, Returned)
  /\ update_positions stop_and_hold_ledger []
     = Some (stop_and_hold_ledger, Returned).
Proof.
  assert (Hwf : wf (positions stop_and_hold_ledger)).
  { unfold wf. simpl. repeat constructor; simpl; intuition discriminate. }
  split; [exact Hwf|]. split; [reflexivity|]. split; [reflexivity|].
  split; apply update_positions_without_prices; try exact Hwf;
    simpl; intros k [<-|[<-|[]]]; reflexivity.
Defined.

(** On a well-formed ledger [update_positions] always ends, and in one of
    two ways. Either it returns, with the same symbols open and the same
    total exposure; or it raises after closing exactly one position: that
    symbol is no longer open, the total exposure went down by its entry
    notional, and every other symbol is still open. The limits are never
    touched. *)
Theorem update_positions_closes_at_most_one :
  forall self prices,
    wf (positions self) ->
    exists self' o,
      update_positions self prices = Some (self', o)
      /\ max_positions self' = max_positions self
      /\ max_exposure self' = max_exposure self
      /\ ((o = Returned
           /\ keys (positions self') = keys (positions self)
           /\ total_exposure self' = total_exposure self)
          \/ (o = Raised_RuntimeError
              /\ S (len (positions self')) = len (positions self)
              /\ exists k p,
                   get (positions self) k = Some p
                   /\ get (positions self') k = None
                   /\ total_exposure self'
                      = total_exposure self - size p * entry_price p
                   /\ forall k', k' <> k ->
                        In k' (keys (positions self)) ->
                        In k' (keys (positions self')))).
Proof.
  intros self prices Hwf.
  rewrite update_positions_scan by exact Hwf.
  destruct (scan_entries_cases prices (positions self) [])
    as [[_ Hscan]|(before & k & p & after & Hpos & _ & _ & Hscan)];
    rewrite Hscan; unfold finish; simpl.
  - eexists. eexists. split; [reflexivity|]. simpl.
    split; [reflexivity|]. split; [reflexivity|]. left.
    split; [reflexivity|]. split; [apply keys_refresh_all | reflexivity].
  - eexists. eexists. split; [reflexivity|]. simpl.
    split; [reflexivity|]. split; [reflexivity|]. right.
    split; [reflexivity|].
    rewrite Hpos in Hwf. pose proof (wf_app_notin _ _ _ _ Hwf) as Hnotin.
    split.
    + rewrite Hpos. unfold len, refresh_all. rewrite !length_app.
      rewrite length_map. simpl. lia.
    + exists k, p. split; [|split; [|split]].
      * rewrite Hpos, get_app_notin by exact Hnotin. simpl.
        now rewrite String.eqb_refl.
      * apply get_None_not_key. unfold keys. rewrite map_app.
        fold (keys (refresh_all prices before)). fold (keys after).
        rewrite keys_refresh_all. intros Hin.
        unfold wf, keys in Hwf. rewrite map_app in Hwf. simpl in Hwf.
        apply NoDup_remove_2 in Hwf. exact (Hwf Hin).
      * reflexivity.
      * intros k' Hne. rewrite Hpos. unfold keys. rewrite !map_app.
        fold (keys (refresh_all prices before)).
        rewrite keys_refresh_all. simpl. intros Hin.
        apply in_app_or in Hin. apply in_or_app.
        destruct Hin as [Hin|[Heq|Hin]]; [now left | | now right].
        exfalso. apply Hne. now symmetry.
Qed.

(** The two-position ledger with the stop-loss of "A" breached. *)
Lemma update_positions_closes_at_most_one_witness :
  wf (positions stop_and_hold_ledger)
  /\ exists self' o,
       update_positions stop_and_hold_ledger [("A", 80); ("B", 120)]
       = Some (self', o)
       /\ max_positions self' = 10%nat.
Proof.
  assert (Hwf : wf (positions stop_and_hold_ledger)).
  { unfold wf. simpl. repeat constructor; simpl; intuition discriminate. }
  split; [exact Hwf|].
  destruct (@update_positions_closes_at_most_one
              stop_and_hold_ledger [("A", 80); ("B", 120)] Hwf)
    as (self' & o & Hrun & Hmp & _).
  exists self', o. split; [exact Hrun|]. rewrite Hmp. reflexivity.
Defined.

(** ** Opening and closing *)

(** Opening a symbol that is not open, within the limits, and closing it
    again leaves the dictionary of positions exactly as it was; the close
    reports the pnl at the exit price, and the total exposure is the old
    one plus and minus the notional. *)
Theorem open_then_close_restores_positions :
  forall now self sym size entry_price direction sl tp exit_price,
    get (positions self) sym = None ->
    (len (positions self) < max_positions self)%nat ->
    (max_exposure self <? total_exposure self + size * entry_price) = false ->
    exists opened closed p,
      open_position now self sym size entry_price direction sl tp
      = (true, opened)
      /\ close_position opened sym exit_price = (true, closed, Some p)
      /\ positions closed = positions self
      /\ pnl p = (exit_price - entry_price) * size
                 * (if (direction =? "long")%string then 1 else -1)
      /\ total_exposure closed
         = total_exposure self + size * entry_price - size * entry_price.
Proof.
  intros now self sym size entry_price direction sl tp exit_price
         Hnew Hcount Hfits.
  unfold open_position. apply Nat.leb_gt in Hcount. rewrite Hcount, Hfits.
  eexists. eexists. eexists. split; [reflexivity|].
  unfold close_position. simpl. rewrite get_setitem_same.
  split; [reflexivity|]. simpl.
  split; [now apply delitem_setitem_new|]. split; reflexivity.
Qed.

(** On the ledger holding 95000 of exposure: open "B" for 5000, close it
    at 6000. *)
Lemma open_then_close_restores_positions_witness :
  get (positions ledger_95000) "B" = None
  /\ (len (positions ledger_95000) < max_positions ledger_95000)%nat
  /\ (max_exposure ledger_95000
      <? total_exposure ledger_95000 + 1 * 5000) = false
  /\ exists opened closed p,
       open_position 1 ledger_95000 "B" 1 5000 "long" None None
       = (true, opened)
       /\ close_position opened "B" 6000 = (true, closed, Some p)
       /\ positions closed = positions ledger_95000
       /\ pnl p = 1000.
Proof.
  assert (Hcount : (len (positions ledger_95000)
                     < max_positions ledger_95000)%nat)
    by (vm_compute; lia).
  split; [reflexivity|]. split; [exact Hcount|]. split; [reflexivity|].
  destruct (@open_then_close_restores_positions
              1 ledger_95000 "B" 1 5000 "long" None None 6000
              eq_refl Hcount eq_refl)
    as (opened & closed & p & Hopen & Hclose & Hpos & Hpnl & _).
  exists opened, closed, p. repeat split; assumption.
Defined.

(** ** Concrete inputs for the general facts about the ledger *)

Definition three_opens : list call :=
  [Open "A" 1 100 "long" None None; Open "B" 2 50 "short" None None;
   Open "C" 3 10 "long" (Some 5) None].

(** Three opens of distinct symbols: the total exposure is the sum of the
    three notionals. *)
Lemma opens_of_distinct_symbols_keep_invariant_witness :
  Forall is_open three_opens
  /\ NoDup (map call_symbol three_opens)
  /\ total_exposure (run_calls 0 PositionManager_init three_opens)
     = open_notional (run_calls 0 PositionManager_init three_opens)
  /\ total_exposure (run_calls 0 PositionManager_init three_opens) = 230.
Proof.
  assert (Hopen : Forall is_open three_opens)
    by (repeat constructor).
  assert (Hnodup : NoDup (map call_symbol three_opens))
    by (simpl; repeat constructor; simpl; intuition discriminate).
  split; [exact Hopen|]. split; [exact Hnodup|].
  split; [|reflexivity].
  exact (opens_of_distinct_symbols_keep_invariant Hopen Hnodup).
Defined.

(** The two-position ledger at prices that breach nothing: both pnl are
    recomputed. *)
Lemma update_positions_without_exit_witness :
  wf (positions stop_and_hold_ledger)
  /\ update_positions stop_and_hold_ledger [("A", 95); ("B", 120)]
     = Some (set_positions stop_and_hold_ledger
               (refresh_all [("A", 95); ("B", 120)]
                            (positions stop_and_hold_ledger)),
             Returned)
  /\ map (fun kv => pnl (snd kv))
         (refresh_all [("A", 95); ("B", 120)]
                      (positions stop_and_hold_ledger))
     = [-5; 20].
Proof.
  assert (Hwf : wf (positions stop_and_hold_ledger)).
  { unfold wf. simpl. repeat constructor; simpl; intuition discriminate. }
  split; [exact Hwf|]. split; [|reflexivity].
  apply update_positions_without_exit; [exact Hwf|].
  simpl. intros k p [Heq|[Heq|[]]]; inversion Heq; reflexivity.
Defined.

(** The same ledger with the stop-loss of "A" breached: "A" is closed,
    "B" is left as it was, the call raises. *)
Lemma update_positions_first_exit_witness :
  wf (positions stop_and_hold_ledger)
  /\ fires [("A", 80); ("B", 120)] "A"
           (Position_init 0 "A" 1 100 "long" (Some 90) None) = true
  /\ update_positions stop_and_hold_ledger [("A", 80); ("B", 120)]
     = Some ({| positions :=
                  [("B", Position_init 1 "B" 1 100 "long" None None)];
                max_positions := 10;
                total_exposure := 200 - 1 * 100;
                max_exposure := 100000 |},
             Raised_RuntimeError).
Proof.
  assert (Hwf : wf (positions stop_and_hold_ledger)).
  { unfold wf. simpl. repeat constructor; simpl; intuition discriminate. }
  split; [exact Hwf|]. split; [reflexivity|].
  apply (@update_positions_first_exit
           stop_and_hold_ledger [("A", 80); ("B", 120)] []
           "A" (Position_init 0 "A" 1 100 "long" (Some 90) None)
           [("B", Position_init 1 "B" 1 100 "long" None None)]).
  - exact Hwf.
  - reflexivity.
  - intros k' p' [].
  - reflexivity.
Defined.

End LedgerRunsFacts.

(* ================================================================== *)
(** * The system monitor: queries, thresholds and alert callbacks *)

Module MonitorAlerts.
Import PyDict Monitor.
Local Open Scope string_scope.

(** [alert_thresholds] as [SystemMonitor.__init__] makes it. The two
    integer limits (100 and 1000) are written as the floats equal to
    them. *)
Definition alert_thresholds_init : dict float :=
  [("cpu_percent", 80%float); ("memory_percent", 80%float);
   ("disk_percent", 80%float); ("network_errors", 100%float);
   ("latency_ms", 1000%float)].

(** [SystemMonitor.set_alert_threshold]. *)
Definition set_alert_threshold (alert_thresholds : dict float)
    (metric : string) (value : float) : dict float :=
  if contains alert_thresholds metric
  then setitem alert_thresholds metric value
  else alert_thresholds.

(** The thresholds after a sequence of [set_alert_threshold] calls. *)
Definition set_alert_thresholds (alert_thresholds : dict float)
    (updates : list (string * float)) : dict float :=
  fold_left (fun t u => set_alert_threshold t (fst u) (snd u))
            updates alert_thresholds.

Section Callbacks.

(** An alert callback. Python compares callbacks by identity: two
    callbacks are the same or they are not. *)
Variable Callback : Type.
Variable Callback_eq_dec : forall a b : Callback, {a = b} + {a <> b}.

(** [SystemMonitor.add_alert_callback]: [append]. *)
Definition add_alert_callback (alert_callbacks : list Callback)
    (callback : Callback) : list Callback :=
  alert_callbacks ++ [callback].

(** [callback in alert_callbacks]. *)
Fixpoint list_contains (l : list Callback) (callback : Callback) : bool :=
  match l with
  | [] => false
  | c :: rest =>
      if Callback_eq_dec c callback then true
      else list_contains rest callback
  end.

(** [list.remove]: drops the first element equal to [callback]. *)
Fixpoint list_remove (l : list Callback) (callback : Callback)
  : list Callback :=
  match l with
  | [] => []
  | c :: rest =>
      if Callback_eq_dec c callback then rest
      else c :: list_remove rest callback
  end.

(** [SystemMonitor.remove_alert_callback]. *)
Definition remove_alert_callback (alert_callbacks : list Callback)
    (callback : Callback) : list Callback :=
  if list_contains alert_callbacks callback
  then list_remove alert_callbacks callback
  else alert_callbacks.

(** How [await callback(alert)] ends: it returns, it raises an
    [Exception] (with [str(e)] as message), or it raises an exception that
    is no [Exception] ([asyncio.CancelledError], [KeyboardInterrupt],
    [SystemExit]), which no [except Exception] catches. *)
Inductive call_end : Type :=
| CallReturned
| CallRaised (message : string)
| CallRaisedBase.

(** A callback is code of the monitor's user: it can change what it can
    reach, the monitor's list of callbacks too. [World] is the state such
    code reads and writes; [self_alert_callbacks w] is the list object
    that [self.alert_callbacks] names in [w] and [list_items w l] are the
    items of the list object [l] in [w]. [call callback alert w] is how
    the awaited call ends from [w], and the state it leaves. *)
Variable World : Type.
Variable ListObject : Type.
Variable self_alert_callbacks : World -> ListObject.
Variable list_items : World -> ListObject -> list Callback.
Variable call : Callback -> string -> World -> call_end * World.

(** What [_trigger_alerts] does, in order: the warning logged for an
    alert, a call of a callback, the error logged when that call raised
    an [Exception]. *)
Inductive alert_event : Type :=
| SystemAlert (alert : string)
| Called (callback : Callback) (alert : string)
| CallbackFailed (message : string).

(** How [_trigger_alerts] ends: it returns, or an exception that is no
    [Exception] leaves it (neither of its two [except Exception] clauses
    catches that one). *)
Inductive ending : Type :=
| Normal
| BaseExceptionRaised.

Definition events_then (events : list alert_event)
    (r : option (list alert_event * World * ending))
  : option (list alert_event * World * ending) :=
  match r with
  | None => None
  | Some (events', w, e) => Some ((events ++ events')%list, w, e)
  end.

(** The inner loop, [for callback in self.alert_callbacks], over the list
    object [l] as it is at each [next()]: the iterator holds the index
    [i] and ends when [i] is no index of the list. [fuel] bounds the
    number of [next()] calls. *)
Fixpoint callbacks_loop (fuel : nat) (alert : string) (l : ListObject)
    (i : nat) (w : World)
  : option (list alert_event * World * ending) :=
  match fuel with
  | O => None
  | S fuel' =>
      match nth_error (list_items w l) i with
      | None => Some ([], w, Normal)
      | Some callback =>
          match call callback alert w with
          | (CallReturned, w') =>
              events_then [Called callback alert]
                          (callbacks_loop fuel' alert l (S i) w')
          | (CallRaised message, w') =>
              events_then
                [Called callback alert;
                 CallbackFailed ("Alert callback failed: " ++ message)]
                (callbacks_loop fuel' alert l (S i) w')
          | (CallRaisedBase, w') =>
              Some ([Called callback alert], w', BaseExceptionRaised)
          end
      end
  end.

(** [SystemMonitor._trigger_alerts]: the outer loop over [alerts] (the
    list [_check_alerts] has just built, which no callback holds), each
    inner loop over the list object [self.alert_callbacks] names when it
    begins. *)
Fixpoint _trigger_alerts (fuel : nat) (alerts : list string) (w : World)
  : option (list alert_event * World * ending) :=
  match alerts with
  | [] => Some ([], w, Normal)
  | alert :: rest =>
      match callbacks_loop fuel alert (self_alert_callbacks w) 0 w with
      | None => None
      | Some (events, w', BaseExceptionRaised) =>
          Some (SystemAlert alert :: events, w', BaseExceptionRaised)
      | Some (events, w', Normal) =>
          events_then (SystemAlert alert :: events)
                      (_trigger_alerts fuel rest w')
      end
  end.

(** The calls among the events, and the number of errors logged. *)
Definition calls_made (events : list alert_event)
  : list (string * Callback) :=
  flat_map (fun e => match e with
                     | Called callback alert => [(alert, callback)]
                     | _ => []
                     end) events.

Definition failures_logged (events : list alert_event) : nat :=
  length (filter (fun e => match e with
                           | CallbackFailed _ => true
                           | _ => false
                           end) events).

Definition alerts_logged (events : list alert_event) : list string :=
  flat_map (fun e => match e with
                     | SystemAlert alert => [alert]
                     | _ => []
                     end) events.

End Callbacks.

Section MetricsHistory.

(** Snapshots carry a [datetime] under "timestamp", unless sampling failed
    and the snapshot is the empty dictionary. [datetime] arithmetic is the
    library's: [minus_minutes t m] is [t - timedelta(minutes=m)], [None]
    when it raises [OverflowError]. *)
Variable Metrics : Type.
Variable Time : Type.
Variable timestamp : Metrics -> option Time.
Variable Time_ge : Time -> Time -> bool.
Variable minus_minutes : Time -> Z -> option Time.

(** The comprehension of [get_metrics_history]; [later i] is what
    [datetime.now()] returns when the default for the snapshot at index
    [i] is evaluated. *)
Fixpoint keep_recent (later : nat -> Time) (cutoff : Time) (i : nat)
    (history : list Metrics) : list Metrics :=
  match history with
  | [] => []
  | m :: rest =>
      let t := match timestamp m with
               | Some t => t
               | None => later i
               end in
      if Time_ge t cutoff
      then m :: keep_recent later cutoff (S i) rest
      else keep_recent later cutoff (S i) rest
  end.

(** [SystemMonitor.get_metrics_history]; [now] is the clock when the
    cutoff is computed. [None] stands for the [OverflowError] of the
    cutoff. *)
Definition get_metrics_history (now : Time) (later : nat -> Time)
    (self : SystemMonitor Metrics) (minutes : option Z)
  : option (list Metrics) :=
  match minutes with
  | None => Some (metrics_history self)
  | Some m =>
      if (m =? 0)%Z then Some (metrics_history self)
      else
        match minus_minutes now m with
        | None => None
        | Some cutoff =>
            Some (keep_recent later cutoff 0 (metrics_history self))
        end
  end.

End MetricsHistory.

End MonitorAlerts.

Module MonitorAlertsFacts.
Import PyDict PyDictFacts Monitor MonitorFacts MonitorAlerts.
Local Open Scope string_scope.
Local Open Scope list_scope.

(** ** The history buffer and its queries *)

(** The monitor as constructed, after 1003 ticks numbered from 0: the
    buffer holds the ticks 3 to 1002. *)
Lemma run_ticks_keeps_latest_witness :
  metrics_history (SystemMonitor_init nat) = []
  /\ (0 < max_history_size (SystemMonitor_init nat))%nat
  /\ metrics_history (run_ticks (SystemMonitor_init nat) (seq 0 1003))
     = seq 3 1000.
Proof.
  split; [reflexivity|]. split; [simpl; lia|].
  rewrite (@run_ticks_keeps_latest nat (SystemMonitor_init nat)
             (seq 0 1003) eq_refl);
    [vm_compute; reflexivity | simpl; lia].
Defined.

(** [get_current_metrics] is empty on an empty history, and after a
    sampling tick on a monitor of capacity at least one it is the snapshot
    of that tick. *)
Theorem current_metrics_is_latest_snapshot :
  forall (Metrics : Type) (self : SystemMonitor Metrics) (metrics : Metrics),
    (0 < max_history_size self)%nat ->
    (length (metrics_history self) <= max_history_size self)%nat ->
    get_current_metrics (store_metrics self metrics) = Some metrics
    /\ (metrics_history self = [] -> get_current_metrics self = None).
Proof.
  intros Metrics self metrics Hcap Hlen. split.
  - assert (Hlast : exists older,
               metrics_history (store_metrics self metrics)
               = older ++ [metrics]).
    { apply Nat.lt_eq_cases in Hlen. destruct Hlen as [Hlt|Heq].
      - eexists. now apply store_metrics_below.
      - rewrite store_metrics_full by exact Heq.
        destruct (metrics_history self) as [|m l]; simpl in *; [lia|].
        now exists l. }
    destruct Hlast as [older Hlast]. unfold get_current_metrics.
    rewrite Hlast, map_app. simpl. apply last_last.
  - intros Hempty. unfold get_current_metrics. now rewrite Hempty.
Qed.

Lemma current_metrics_is_latest_snapshot_witness :
  (0 < max_history_size (SystemMonitor_init nat))%nat
  /\ (length (metrics_history (SystemMonitor_init nat))
      <= max_history_size (SystemMonitor_init nat))%nat
  /\ get_current_metrics (SystemMonitor_init nat) = None
  /\ get_current_metrics (store_metrics (SystemMonitor_init nat) 7)
     = Some 7.
Proof.
  assert (Hcap : (0 < max_history_size (SystemMonitor_init nat))%nat)
    by (simpl; lia).
  assert (Hlen : (length (metrics_history (SystemMonitor_init nat))
                  <= max_history_size (SystemMonitor_init nat))%nat)
    by (simpl; lia).
  split; [exact Hcap|]. split; [exact Hlen|]. split; [reflexivity|].
  exact (proj1 (@current_metrics_is_latest_snapshot
                  nat (SystemMonitor_init nat) 7 Hcap Hlen)).
Defined.

(** ** Stopping *)

Lemma wake_stopped_tasks (Metrics : Type) (n : nat) :
  forall (rt : Runtime Metrics) (samples : list Metrics),
    monitoring (monitor rt) = false ->
    (n <= length samples)%nat ->
    wake_tasks n rt samples
    = {| monitor := monitor rt; loop_tasks := loop_tasks rt - n |}.
Proof.
  induction n as [|n IH]; intros rt samples Hoff Hlen.
  - destruct rt as [m t]. simpl. destruct samples; now rewrite Nat.sub_0_r.
  - destruct samples as [|s samples]; simpl in Hlen; [lia|]. simpl.
    unfold monitor_loop_turn at 1. rewrite Hoff.
    rewrite IH; [|exact Hoff|lia]. simpl. f_equal. lia.
Qed.

(** After [stop_monitoring], the next time the sampling tasks wake up none
    of them stores a snapshot and all of them end: the history is as it
    was and no task is left. *)
Theorem stop_monitoring_ends_every_task :
  forall (Metrics : Type) (rt : Runtime Metrics) (samples : list Metrics),
    (loop_tasks rt <= length samples)%nat ->
    sampling_interval (stop_monitoring rt) samples
    = {| monitor := set_monitoring (monitor rt) false; loop_tasks := 0 |}.
Proof.
  intros Metrics rt samples Hlen. unfold sampling_interval.
  rewrite wake_stopped_tasks; simpl; [|reflexivity|exact Hlen].
  f_equal. lia.
Qed.

(** Started twice, sampled once, then stopped. *)
Lemma stop_monitoring_ends_every_task_witness :
  (loop_tasks (sampling_interval started_twice [7; 8]) <= length [9; 10])%nat
  /\ loop_tasks (sampling_interval started_twice [7; 8]) = 2%nat
  /\ sampling_interval
       (stop_monitoring (sampling_interval started_twice [7; 8])) [9; 10]
     = {| monitor := {| metrics_history := [7; 8];
                        max_history_size := 1000;
                        monitoring := false |};
          loop_tasks := 0 |}.
Proof.
  split; [simpl; lia|]. split; [reflexivity|].
  rewrite (@stop_monitoring_ends_every_task nat
             (sampling_interval started_twice [7; 8]) [9; 10]);
    [reflexivity | simpl; lia].
Defined.

(** ** Thresholds *)

Lemma keys_setitem_bound {V : Type} (d : dict V) k v :
  contains d k = true -> keys (setitem d k v) = keys d.
Proof.
  unfold contains, keys. induction d as [|[k0 v0] d IH]; simpl;
    [discriminate|].
  destruct (String.eqb_spec k k0) as [->|Hne]; simpl; [reflexivity|].
  intros Hin. now rewrite IH.
Qed.

Lemma keys_set_alert_threshold t metric value :
  keys (set_alert_threshold t metric value) = keys t.
Proof.
  unfold set_alert_threshold. destruct (contains t metric) eqn:Hin;
    [now apply keys_setitem_bound | reflexivity].
Qed.

(** [set_alert_threshold] changes the limit of a metric that has one and
    nothing else; for any other name it does nothing; it never adds or
    removes a threshold, so after any sequence of calls the monitor has
    the five thresholds it was constructed with. *)
Theorem set_alert_threshold_keeps_the_threshold_names :
  forall (t : dict float) (metric : string) (value : float)
         (updates : list (string * float)),
    keys (set_alert_threshold t metric value) = keys t
    /\ (contains t metric = true ->
        get (set_alert_threshold t metric value) metric = Some value)
    /\ (contains t metric = false ->
        set_alert_threshold t metric value = t)
    /\ (forall k, k <> metric ->
          get (set_alert_threshold t metric value) k = get t k)
    /\ keys (set_alert_thresholds alert_thresholds_init updates)
       = ["cpu_percent"; "memory_percent"; "disk_percent";
          "network_errors"; "latency_ms"].
Proof.
  intros t metric value updates.
  split; [apply keys_set_alert_threshold|].
  split; [|split; [|split]].
  - intros Hin. unfold set_alert_threshold. rewrite Hin.
    apply get_setitem_same.
  - intros Hout. unfold set_alert_threshold. now rewrite Hout.
  - intros k Hne. unfold set_alert_threshold.
    destruct (contains t metric); [now apply get_setitem_other|reflexivity].
  - unfold set_alert_thresholds.
    change ["cpu_percent"; "memory_percent"; "disk_percent";
            "network_errors"; "latency_ms"]
      with (keys alert_thresholds_init).
    generalize alert_thresholds_init as t0.
    induction updates as [|u updates IH]; intros t0; simpl; [reflexivity|].
    rewrite IH. apply keys_set_alert_threshold.
Qed.

(** ** Alert callbacks *)

Section CallbackFacts.
Variable Callback : Type.
Variable Callback_eq_dec : forall a b : Callback, {a = b} + {a <> b}.
Implicit Types (l : list Callback) (cb : Callback).

Lemma list_contains_In l cb :
  list_contains Callback_eq_dec l cb = true <-> In cb l.
Proof.
  induction l as [|c l IH]; simpl; [intuition discriminate|].
  destruct (Callback_eq_dec c cb) as [->|Hne].
  - intuition.
  - rewrite IH. intuition.
Qed.

Lemma list_remove_absent l cb :
  ~ In cb l -> list_remove Callback_eq_dec l cb = l.
Proof.
  induction l as [|c l IH]; simpl; intros Hnotin; [reflexivity|].
  destruct (Callback_eq_dec c cb) as [->|Hne].
  - exfalso. apply Hnotin. now left.
  - rewrite IH; [reflexivity|]. intros Hin. apply Hnotin. now right.
Qed.

Lemma list_remove_appended l cb :
  ~ In cb l -> list_remove Callback_eq_dec (l ++ [cb]) cb = l.
Proof.
  induction l as [|c l IH]; simpl; intros Hnotin.
  - now destruct (Callback_eq_dec cb cb).
  - destruct (Callback_eq_dec c cb) as [->|Hne].
    + exfalso. apply Hnotin. now left.
    + rewrite IH; [reflexivity|]. intros Hin. apply Hnotin. now right.
Qed.

Lemma count_occ_list_remove l cb c :
  In cb l ->
  count_occ Callback_eq_dec l c
  = count_occ Callback_eq_dec (list_remove Callback_eq_dec l cb) c
    + (if Callback_eq_dec cb c then 1 else 0).
Proof.
  induction l as [|c0 l IH]; simpl; intros Hin; [contradiction|].
  destruct (Callback_eq_dec c0 cb) as [->|Hne].
  - destruct (Callback_eq_dec cb c); lia.
  - destruct Hin as [Heq|Hin]; [contradiction|].
    simpl. rewrite (IH Hin). destruct (Callback_eq_dec c0 c); lia.
Qed.

Lemma list_remove_first l cb :
  In cb l ->
  exists before after,
    l = before ++ cb :: after
    /\ ~ In cb before
    /\ list_remove Callback_eq_dec l cb = before ++ after.
Proof.
  induction l as [|c l IH]; simpl; intros Hin; [contradiction|].
  destruct (Callback_eq_dec c cb) as [->|Hne].
  - exists [], l. split; [reflexivity|]. split; [intros []|reflexivity].
  - destruct Hin as [Heq|Hin]; [contradiction|].
    destruct (IH Hin) as (before & after & Hl & Hnotin & Hrem).
    exists (c :: before), after. simpl. rewrite Hrem, <- Hl.
    split; [reflexivity|]. split; [|reflexivity].
    intros [Heq|Hin']; [contradiction | now apply Hnotin].
Qed.

(** Removing a callback that is not registered changes nothing; adding a
    callback that was not registered and removing it gives the list back;
    removing a registered callback takes out its first registration and
    nothing else: the registrations before it and after it stay, in their
    order, so that a callback added twice is still registered after one
    removal, at the place of its second registration. *)
Theorem remove_alert_callback_removes_one_registration :
  forall (alert_callbacks : list Callback) (callback : Callback),
    (~ In callback alert_callbacks ->
     remove_alert_callback Callback_eq_dec alert_callbacks callback
     = alert_callbacks
     /\ remove_alert_callback Callback_eq_dec
          (add_alert_callback alert_callbacks callback) callback
        = alert_callbacks)
    /\ (In callback alert_callbacks ->
        exists before after,
          alert_callbacks = before ++ callback :: after
          /\ ~ In callback before
          /\ remove_alert_callback Callback_eq_dec alert_callbacks callback
             = before ++ after)
    /\ (In callback alert_callbacks ->
        S (count_occ Callback_eq_dec
             (remove_alert_callback Callback_eq_dec alert_callbacks callback)
             callback)
        = count_occ Callback_eq_dec alert_callbacks callback)
    /\ (forall other, other <> callback ->
          count_occ Callback_eq_dec
            (remove_alert_callback Callback_eq_dec alert_callbacks callback)
            other
          = count_occ Callback_eq_dec alert_callbacks other)
    /\ (forall before after,
          ~ In callback before ->
          remove_alert_callback Callback_eq_dec
            (before ++ callback :: after) callback
          = before ++ after).
Proof.
  intros l cb. unfold remove_alert_callback, add_alert_callback.
  split; [|split; [|split; [|split]]].
  - intros Hnotin. split.
    + destruct (list_contains Callback_eq_dec l cb) eqn:Hin;
        [|reflexivity].
      apply list_contains_In in Hin. contradiction.
    + replace (list_contains Callback_eq_dec (l ++ [cb]) cb) with true.
      * now apply list_remove_appended.
      * symmetry. apply list_contains_In. apply in_or_app. right.
        now left.
  - intros Hin. pose proof (proj2 (list_contains_In l cb) Hin) as Hc.
    rewrite Hc. now apply list_remove_first.
  - intros Hin. pose proof (proj2 (list_contains_In l cb) Hin) as Hc.
    rewrite Hc. rewrite (@count_occ_list_remove l cb cb Hin).
    destruct (Callback_eq_dec cb cb); [lia | contradiction].
  - intros other Hne.
    destruct (list_contains Callback_eq_dec l cb) eqn:Hc; [|reflexivity].
    apply list_contains_In in Hc.
    rewrite (@count_occ_list_remove l cb other Hc).
    destruct (Callback_eq_dec cb other) as [->|_]; [contradiction | lia].
  - intros before after Hnotin.
    replace (list_contains Callback_eq_dec (before ++ cb :: after) cb)
      with true
      by (symmetry; apply list_contains_In, in_or_app; right; now left).
    induction before as [|c before IH]; simpl.
    + now destruct (Callback_eq_dec cb cb).
    + destruct (Callback_eq_dec c cb) as [->|Hne].
      * exfalso. apply Hnotin. now left.
      * rewrite IH; [reflexivity|]. intros Hin. apply Hnotin. now right.
Qed.

(** ** Triggering alerts *)

Variable World : Type.
Variable ListObject : Type.
Variable self_alert_callbacks : World -> ListObject.
Variable list_items : World -> ListObject -> list Callback.
Variable call : Callback -> string -> World -> call_end * World.

Lemma calls_made_app (e1 e2 : list (alert_event Callback)) :
  calls_made (e1 ++ e2) = calls_made e1 ++ calls_made e2.
Proof. unfold calls_made. apply flat_map_app. Qed.

Lemma failures_logged_app (e1 e2 : list (alert_event Callback)) :
  failures_logged (e1 ++ e2) = failures_logged e1 + failures_logged e2.
Proof. unfold failures_logged. now rewrite filter_app, length_app. Qed.

Lemma alerts_logged_app (e1 e2 : list (alert_event Callback)) :
  alerts_logged (e1 ++ e2) = alerts_logged e1 ++ alerts_logged e2.
Proof. unfold alerts_logged. apply flat_map_app. Qed.

(** The calls [calls] awaited one after the other from [w], up to the
    first that raises an exception that is no [Exception]: the calls
    made, how many of them raised an [Exception], the state they leave
    and the ending. *)
Fixpoint await_calls (calls : list (string * Callback)) (w : World)
  : list (string * Callback) * nat * World * ending :=
  match calls with
  | [] => ([], 0, w, Normal)
  | (alert, callback) :: rest =>
      match call callback alert w with
      | (CallReturned, w') =>
          let '(made, failed, w'', e) := await_calls rest w' in
          ((alert, callback) :: made, failed, w'', e)
      | (CallRaised _, w') =>
          let '(made, failed, w'', e) := await_calls rest w' in
          ((alert, callback) :: made, S failed, w'', e)
      | (CallRaisedBase, w') =>
          ([(alert, callback)], 0, w', BaseExceptionRaised)
      end
  end.

(** Every alert with every callback, alert by alert, the callbacks in the
    order of registration. *)
Definition every_call (alerts : list string) (callbacks : list Callback)
  : list (string * Callback) :=
  flat_map (fun alert => map (pair alert) callbacks) alerts.

Lemma await_calls_app calls1 calls2 w :
  await_calls (calls1 ++ calls2) w
  = match await_calls calls1 w with
    | (made1, failed1, w1, BaseExceptionRaised) =>
        (made1, failed1, w1, BaseExceptionRaised)
    | (made1, failed1, w1, Normal) =>
        let '(made2, failed2, w2, e) := await_calls calls2 w1 in
        (made1 ++ made2, failed1 + failed2, w2, e)
    end.
Proof.
  revert w. induction calls1 as [|[alert callback] calls1 IH]; intros w.
  - simpl. now destruct (await_calls calls2 w) as [[[made failed] w'] e].
  - simpl. destruct (call callback alert w) as [[|message|] w'];
      [| |reflexivity]; rewrite IH;
      destruct (await_calls calls1 w') as [[[made1 failed1] w1] [|]];
      try reflexivity;
      now destruct (await_calls calls2 w1) as [[[made2 failed2] w2] e].
Qed.

Lemma await_calls_prefix calls : forall w made failed w' e,
  await_calls calls w = (made, failed, w', e) ->
  exists later,
    calls = made ++ later
    /\ failed <= length made
    /\ (e = Normal -> later = []).
Proof.
  induction calls as [|[alert callback] calls IH];
    intros w made failed w' e; simpl.
  - intros [= <- <- <- <-]. exists []. repeat split. lia.
  - destruct (call callback alert w) as [[|message|] w1].
    + destruct (await_calls calls w1) as [[[made1 failed1] w2] e1] eqn:Hrest.
      intros [= <- <- <- <-].
      destruct (IH _ _ _ _ _ Hrest) as (later & -> & Hle & Hnormal).
      exists later. simpl. repeat split; [lia | exact Hnormal].
    + destruct (await_calls calls w1) as [[[made1 failed1] w2] e1] eqn:Hrest.
      intros [= <- <- <- <-].
      destruct (IH _ _ _ _ _ Hrest) as (later & -> & Hle & Hnormal).
      exists later. simpl. repeat split; [lia | exact Hnormal].
    + intros [= <- <- <- <-]. exists calls. simpl.
      repeat split; [lia | discriminate].
Qed.

Lemma await_calls_no_base calls : forall w,
  (forall c a w0, fst (call c a w0) <> CallRaisedBase) ->
  snd (await_calls calls w) = Normal
  /\ fst (fst (fst (await_calls calls w))) = calls.
Proof.
  intros w Hnobase. revert w.
  induction calls as [|[alert callback] calls IH]; intros w; simpl;
    [split; reflexivity|].
  pose proof (Hnobase callback alert w) as Hthis.
  destruct (call callback alert w) as [[|message|] w1]; simpl in Hthis;
    [| |contradiction]; specialize (IH w1);
    destruct (await_calls calls w1) as [[[made1 failed1] w2] e1];
    simpl in *; destruct IH as [-> ->]; split; reflexivity.
Qed.

Lemma skipn_nil_nth_error (l : list Callback) i :
  skipn i l = [] -> nth_error l i = None.
Proof.
  revert l. induction i as [|i IH]; intros [|c l]; simpl; try reflexivity.
  - discriminate.
  - apply IH.
Qed.

Lemma skipn_cons_nth_error (l : list Callback) i c rest :
  skipn i l = c :: rest -> nth_error l i = Some c /\ skipn (S i) l = rest.
Proof.
  revert l. induction i as [|i IH]; intros [|c0 l]; simpl; try discriminate.
  - intros [= -> ->]. split; reflexivity.
  - apply IH.
Qed.

Section WhenCallbacksKeepTheList.

(** No call of a callback changes the items of a list object, or the
    list object that [self.alert_callbacks] names. *)
Hypothesis call_keeps_items :
  forall c a w lo, list_items (snd (call c a w)) lo = list_items w lo.
Hypothesis call_keeps_attribute :
  forall c a w,
    self_alert_callbacks (snd (call c a w)) = self_alert_callbacks w.

Lemma await_calls_keeps calls : forall w,
  self_alert_callbacks (snd (fst (await_calls calls w)))
  = self_alert_callbacks w
  /\ forall lo,
       list_items (snd (fst (await_calls calls w))) lo = list_items w lo.
Proof.
  induction calls as [|[alert callback] calls IH]; intros w; simpl;
    [split; reflexivity|].
  pose proof (call_keeps_items callback alert w) as Hitems.
  pose proof (call_keeps_attribute callback alert w) as Hattr.
  destruct (call callback alert w) as [[|message|] w1]; simpl in *;
    [| |split; assumption]; specialize (IH w1);
    destruct (await_calls calls w1) as [[[made1 failed1] w2] e1];
    simpl in *; destruct IH as [IHattr IHitems];
    (split; [congruence | intros lo; now rewrite IHitems]).
Qed.

Lemma callbacks_loop_awaits alert lo rest :
  forall i w fuel made failed w' e,
    skipn i (list_items w lo) = rest ->
    length rest < fuel ->
    await_calls (map (pair alert) rest) w = (made, failed, w', e) ->
    exists events,
      callbacks_loop list_items call fuel alert lo i w
      = Some (events, w', e)
      /\ calls_made events = made
      /\ failures_logged events = failed
      /\ alerts_logged events = [].
Proof.
  induction rest as [|c rest IH];
    intros i w fuel made failed w' e Hskip Hfuel Hawait;
    (destruct fuel as [|fuel]; [simpl in Hfuel; lia|]); simpl.
  - rewrite (skipn_nil_nth_error _ _ Hskip).
    simpl in Hawait. injection Hawait as <- <- <- <-.
    exists []. repeat split.
  - destruct (skipn_cons_nth_error _ _ Hskip) as [Hnth Hnext].
    rewrite Hnth. simpl in Hawait, Hfuel.
    pose proof (call_keeps_items c alert w lo) as Hitems.
    destruct (call c alert w) as [[|message|] w1]; simpl in Hitems.
    + destruct (await_calls (map (pair alert) rest) w1)
        as [[[made1 failed1] w2] e1] eqn:Hrest.
      injection Hawait as <- <- <- <-.
      destruct (IH (S i) w1 fuel made1 failed1 w2 e1)
        as (events & -> & Hmade & Hfailed & Hlogged);
        [now rewrite Hitems | lia | exact Hrest |].
      eexists. split; [reflexivity|]. simpl.
      rewrite <- Hmade, <- Hfailed. repeat split. exact Hlogged.
    + destruct (await_calls (map (pair alert) rest) w1)
        as [[[made1 failed1] w2] e1] eqn:Hrest.
      injection Hawait as <- <- <- <-.
      destruct (IH (S i) w1 fuel made1 failed1 w2 e1)
        as (events & -> & Hmade & Hfailed & Hlogged);
        [now rewrite Hitems | lia | exact Hrest |].
      eexists. split; [reflexivity|]. simpl.
      rewrite <- Hmade, <- Hfailed. repeat split. exact Hlogged.
    + injection Hawait as <- <- <- <-.
      eexists. split; [reflexivity|]. repeat split.
Qed.

Lemma trigger_alerts_awaits callbacks alerts :
  forall w fuel made failed w' e,
    list_items w (self_alert_callbacks w) = callbacks ->
    length callbacks < fuel ->
    await_calls (every_call alerts callbacks) w = (made, failed, w', e) ->
    exists events,
      _trigger_alerts self_alert_callbacks list_items call fuel alerts w
      = Some (events, w', e)
      /\ calls_made events = made
      /\ failures_logged events = failed
      /\ (e = Normal -> alerts_logged events = alerts).
Proof.
  induction alerts as [|alert alerts IH];
    intros w fuel made failed w' e Hitems Hfuel Hawait.
  - simpl in *. injection Hawait as <- <- <- <-.
    exists []. repeat split.
  - change (every_call (alert :: alerts) callbacks)
      with (map (pair alert) callbacks ++ every_call alerts callbacks)
      in Hawait.
    rewrite await_calls_app in Hawait.
    destruct (await_calls (map (pair alert) callbacks) w)
      as [[[made1 failed1] w1] e1] eqn:Hfirst.
    destruct (@callbacks_loop_awaits alert (self_alert_callbacks w)
                callbacks 0 w fuel made1 failed1 w1 e1)
      as (events1 & Hloop & Hmade1 & Hfailed1 & Hlogged1);
      [exact Hitems | exact Hfuel | exact Hfirst |].
    simpl. rewrite Hloop.
    destruct e1.
    + destruct (await_calls (every_call alerts callbacks) w1)
        as [[[made2 failed2] w2] e2] eqn:Hrest.
      injection Hawait as <- <- <- <-.
      destruct (await_calls_keeps (map (pair alert) callbacks) w)
        as [Hattr Hkept].
      rewrite Hfirst in Hattr, Hkept. simpl in Hattr, Hkept.
      destruct (IH w1 fuel made2 failed2 w2 e2)
        as (events2 & -> & Hmade2 & Hfailed2 & Hlogged2);
        [now rewrite Hattr, Hkept | exact Hfuel | exact Hrest |].
      eexists. split; [reflexivity|].
      change (SystemAlert Callback alert :: events1)
        with ([SystemAlert Callback alert] ++ events1).
      rewrite <- !app_assoc.
      rewrite !calls_made_app, !failures_logged_app, !alerts_logged_app.
      rewrite Hmade1, Hmade2, Hfailed1, Hfailed2, Hlogged1. simpl.
      repeat split. intros He. now rewrite Hlogged2.
    + injection Hawait as <- <- <- <-.
      eexists. split; [reflexivity|].
      change (SystemAlert Callback alert :: events1)
        with ([SystemAlert Callback alert] ++ events1).
      rewrite calls_made_app, failures_logged_app.
      rewrite Hmade1, Hfailed1. repeat split. discriminate.
Qed.

End WhenCallbacksKeepTheList.

(** When no callback changes the monitor's list of callbacks,
    [_trigger_alerts] ends after at most one [next()] more than there are
    callbacks per alert, and it does what awaiting every callback for
    every alert does, alert by alert and in the order of registration, up
    to the first call that raises an exception that is no [Exception]:
    that exception leaves [_trigger_alerts] and no later call is made. A
    call that raises an [Exception] is logged and stops nothing: when no
    call raises anything else, every callback is called once for every
    alert, every alert is logged, and one error is logged per raising
    call. *)
Theorem trigger_alerts_calls_every_callback :
  forall (alerts : list string) (w : World) (fuel : nat),
    (forall c a w0 lo, list_items (snd (call c a w0)) lo = list_items w0 lo) ->
    (forall c a w0,
       self_alert_callbacks (snd (call c a w0)) = self_alert_callbacks w0) ->
    length (list_items w (self_alert_callbacks w)) < fuel ->
    exists events w' e,
      _trigger_alerts self_alert_callbacks list_items call fuel alerts w
      = Some (events, w', e)
      /\ await_calls
           (every_call alerts (list_items w (self_alert_callbacks w))) w
         = (calls_made events, failures_logged events, w', e)
      /\ (exists later,
            every_call alerts (list_items w (self_alert_callbacks w))
            = calls_made events ++ later
            /\ (e = Normal -> later = []))
      /\ failures_logged events <= length (calls_made events)
      /\ (e = Normal -> alerts_logged events = alerts)
      /\ ((forall c a w0, fst (call c a w0) <> CallRaisedBase) ->
          e = Normal
          /\ calls_made events
             = every_call alerts (list_items w (self_alert_callbacks w))
          /\ alerts_logged events = alerts).
Proof.
  intros alerts w fuel Hitems Hattr Hfuel.
  destruct (await_calls
              (every_call alerts (list_items w (self_alert_callbacks w))) w)
    as [[[made failed] w'] e] eqn:Hawait.
  destruct (@trigger_alerts_awaits Hitems Hattr
              (list_items w (self_alert_callbacks w)) alerts
              w fuel made failed w' e eq_refl Hfuel Hawait)
    as (events & Hrun & Hmade & Hfailed & Hlogged).
  exists events, w', e. rewrite Hmade, Hfailed.
  destruct (await_calls_prefix _ _ Hawait) as (later & Hcalls & Hle & Hall).
  split; [exact Hrun|]. split; [reflexivity|].
  split; [exists later; split; assumption|].
  split; [exact Hle|]. split; [exact Hlogged|].
  intros Hnobase.
  destruct (await_calls_no_base
              (every_call alerts (list_items w (self_alert_callbacks w)))
              w Hnobase) as [Hend Hevery].
  rewrite Hawait in Hend, Hevery. simpl in Hend, Hevery.
  split; [exact Hend|]. split; [exact Hevery|]. now apply Hlogged.
Qed.

End CallbackFacts.

(** Three callbacks, 1, 2 and 3, in a list that nothing changes: 2 raises
    an [Exception] at every call, the others return; the state counts the
    calls. *)
Definition three_callbacks (w : nat) (lo : unit) : list nat := [1; 2; 3].

Definition the_only_list (w : nat) : unit := tt.

Definition second_raises (callback : nat) (alert : string) (w : nat)
  : call_end * nat :=
  (if (callback =? 2)%nat then CallRaised "boom" else CallReturned, S w).

Lemma trigger_alerts_calls_every_callback_witness :
  (length (three_callbacks 0 (the_only_list 0)) < 4)%nat
  /\ exists events w' e,
       _trigger_alerts the_only_list three_callbacks second_raises 4
                       ["High CPU usage: 95.0%"; "High disk usage: 91.5%"] 0
       = Some (events, w', e)
       /\ e = Normal
       /\ calls_made events
          = [("High CPU usage: 95.0%", 1); ("High CPU usage: 95.0%", 2);
             ("High CPU usage: 95.0%", 3); ("High disk usage: 91.5%", 1);
             ("High disk usage: 91.5%", 2); ("High disk usage: 91.5%", 3)]
       /\ alerts_logged events
          = ["High CPU usage: 95.0%"; "High disk usage: 91.5%"].
Proof.
  split; [simpl; lia|].
  destruct (@trigger_alerts_calls_every_callback
              nat nat unit the_only_list three_callbacks second_raises
              ["High CPU usage: 95.0%"; "High disk usage: 91.5%"] 0 4)
    as (events & w' & e & Hrun & _ & _ & _ & _ & Hall).
  - reflexivity.
  - reflexivity.
  - simpl. lia.
  - exists events, w', e. split; [exact Hrun|].
    destruct Hall as (He & Hcalls & Hlogged).
    + intros c a w0. unfold second_raises. simpl.
      now destruct (c =? 2)%nat.
    + split; [exact He|]. split; [exact Hcalls | exact Hlogged].
Defined.

(** What the theorem's two conditions exclude. A callback that takes its
    own registration out while it runs makes the loop pass over the
    callback registered after it: of 1, 2 and 3, with 1 removing itself,
    only 1 and 3 are called. And a callback that is cancelled ends the
    whole round: of 1, 2 and 3, with 2 raising [CancelledError], 3 is not
    called and the second alert is not even logged. *)
Definition removes_itself (callback : nat) (alert : string) (w : list nat)
  : call_end * list nat :=
  if (callback =? 1)%nat
  then (CallReturned, remove_alert_callback Nat.eq_dec w 1)
  else (CallReturned, w).

Definition second_is_cancelled (callback : nat) (alert : string) (w : nat)
  : call_end * nat :=
  (if (callback =? 2)%nat then CallRaisedBase else CallReturned, S w).

Example callbacks_that_break_the_round :
  _trigger_alerts (fun _ => tt) (fun (w : list nat) (_ : unit) => w)
                  removes_itself 4 ["High CPU usage: 95.0%"] [1; 2; 3]
  = Some ([SystemAlert nat "High CPU usage: 95.0%";
           Called 1 "High CPU usage: 95.0%";
           Called 3 "High CPU usage: 95.0%"], [2; 3], Normal)
  /\ _trigger_alerts the_only_list three_callbacks second_is_cancelled 4
                     ["High CPU usage: 95.0%"; "High disk usage: 91.5%"] 0
     = Some ([SystemAlert nat "High CPU usage: 95.0%";
              Called 1 "High CPU usage: 95.0%";
              Called 2 "High CPU usage: 95.0%"], 2, BaseExceptionRaised).
Proof. split; reflexivity. Qed.

(** ** The history in a time window *)

(** [l] is [l'] with some elements left out. *)
Inductive subsequence {A : Type} : list A -> list A -> Prop :=
| subsequence_nil : subsequence [] []
| subsequence_skip x l l' : subsequence l l' -> subsequence l (x :: l')
| subsequence_keep x l l' :
    subsequence l l' -> subsequence (x :: l) (x :: l').

Lemma subsequence_refl {A : Type} (l : list A) : subsequence l l.
Proof. induction l; constructor; assumption. Qed.

Section WindowFacts.
Variable Metrics : Type.
Variable Time : Type.
Variable timestamp : Metrics -> option Time.
Variable Time_ge : Time -> Time -> bool.
Variable minus_minutes : Time -> Z -> option Time.

Lemma keep_recent_subsequence later cutoff history : forall i,
  subsequence (keep_recent timestamp Time_ge later cutoff i history) history.
Proof.
  induction history as [|m rest IH]; intros i; simpl; [constructor|].
  destruct (Time_ge _ cutoff); constructor; apply IH.
Qed.

Lemma keep_recent_stamped later cutoff history : forall i,
  (forall m, In m history -> timestamp m <> None) ->
  keep_recent timestamp Time_ge later cutoff i history
  = filter (fun m => match timestamp m with
                     | Some t => Time_ge t cutoff
                     | None => false
                     end) history.
Proof.
  induction history as [|m rest IH]; intros i Hstamped; simpl;
    [reflexivity|].
  destruct (timestamp m) as [t|] eqn:Hts.
  - destruct (Time_ge t cutoff);
      rewrite IH by (intros m' Hin; apply Hstamped; now right);
      reflexivity.
  - exfalso. apply (Hstamped m); [now left | exact Hts].
Qed.

(** [get_metrics_history] with no window, and with a window of 0 minutes,
    returns the whole history. With any other window it returns, unless
    the cutoff cannot be computed, a selection of the history in the
    order of the history: the snapshots whose timestamp is not before the
    cutoff, when every snapshot has one. *)
Theorem metrics_history_window :
  forall (now : Time) (later : nat -> Time)
         (self : SystemMonitor Metrics) (minutes : option Z),
    (minutes = None \/ minutes = Some 0%Z ->
     get_metrics_history timestamp Time_ge minus_minutes now later
                         self minutes
     = Some (metrics_history self))
    /\ (forall result,
          get_metrics_history timestamp Time_ge minus_minutes now later
                              self minutes
          = Some result ->
          subsequence result (metrics_history self))
    /\ (forall m cutoff,
          minutes = Some m -> m <> 0%Z ->
          minus_minutes now m = Some cutoff ->
          (forall x, In x (metrics_history self) -> timestamp x <> None) ->
          get_metrics_history timestamp Time_ge minus_minutes now later
                              self minutes
          = Some (filter (fun x => match timestamp x with
                                   | Some t => Time_ge t cutoff
                                   | None => false
                                   end)
                         (metrics_history self))).
Proof.
  intros now later self minutes. split; [|split].
  - intros [->| ->]; reflexivity.
  - intros result. unfold get_metrics_history.
    destruct minutes as [m|]; [|intros [= <-]; apply subsequence_refl].
    destruct (m =? 0)%Z; [intros [= <-]; apply subsequence_refl|].
    destruct (minus_minutes now m) as [cutoff|]; [|discriminate].
    intros [= <-]. apply keep_recent_subsequence.
  - intros m cutoff -> Hm Hcutoff Hstamped. unfold get_metrics_history.
    apply Z.eqb_neq in Hm. rewrite Hm, Hcutoff.
    now rewrite keep_recent_stamped.
Qed.

End WindowFacts.

End MonitorAlertsFacts.

(* ================================================================== *)
(** * The risk calculator: position size and pairwise correlations *)

Module RiskSizing.
Local Open Scope float_scope.

(** [position_size_percent] as [RiskCalculator.__init__] sets it. *)
Definition position_size_percent : float := 2.

(** Python's [min(a, b)]: [b] when [b < a], else [a]. *)
Definition py_min (a b : float) : float := if b <? a then b else a.

(** [RiskCalculator.calculate_position_size]. A float division raises
    [ZeroDivisionError] exactly when the divisor is zero; the [except]
    branch then returns 0.0. Nothing else in the body raises. *)
Definition calculate_position_size
    (account_value risk_per_trade stop_loss_percent : float) : float :=
  (* maximum loss allowed for the trade *)
  let max_loss := account_value * (risk_per_trade / 100) in
  let divisor := stop_loss_percent / 100 in
  if divisor =? 0 then 0
  else
    let position_size := max_loss / divisor in
    (* the account's position size limit *)
    let max_position := account_value * (position_size_percent / 100) in
    py_min position_size max_position.

Section Correlation.

(** [np.corrcoef(a, b)[0, 1]] is numpy's; [None] when it raises. *)
Variable np_corrcoef : list float -> list float -> option float.

(** [RiskCalculator.calculate_correlation]. *)
Definition calculate_correlation (returns_a returns_b : list float)
  : float :=
  if negb (length returns_a =? length returns_b)%nat then 0
  else
    match np_corrcoef returns_a returns_b with
    | Some correlation => correlation
    | None => 0
    end.

(** The index pairs the two nested loops of [get_risk_metrics] visit:
    [for i in range(n): for j in range(i + 1, n)]. *)
Definition pair_indices (n : nat) : list (nat * nat) :=
  flat_map (fun i => map (pair i) (seq (S i) (n - S i))) (seq 0 n).

(** The list [correlations] of [get_risk_metrics]; a position is given by
    its series [position.get("returns", [])]. *)
Definition correlations (positions : list (list float)) : list float :=
  flat_map
    (fun i =>
       map (fun j =>
              calculate_correlation (nth i positions []) (nth j positions []))
           (seq (S i) (length positions - S i)))
    (seq 0 (length positions)).

(** Python's [max] of a list: a later element replaces the running
    maximum when it is greater. *)
Definition py_max (a b : float) : float := if a <? b then b else a.

(** The entry "max_correlation" of the result of [get_risk_metrics]:
    absent ([None]) unless there are at least two positions. *)
Definition max_correlation (positions : list (list float)) : option float :=
  if (1 <? length positions)%nat then
    Some match correlations positions with
         | [] => 0
         | c :: cs => fold_left py_max cs c
         end
  else None.

End Correlation.
End RiskSizing.

Module RiskSizingFacts.
Import RiskSizing.
Local Open Scope float_scope.

(** No float is less than itself. *)
Lemma ltb_irrefl (x : float) : (x <? x) = false.
Proof.
  rewrite ltb_spec. unfold SpecFloat.SFltb.
  destruct (Prim2SF x) as [s|s| |s m e]; simpl;
    try (destruct s; reflexivity); try reflexivity.
  destruct s; rewrite Z.compare_refl, Pos.compare_cont_refl; reflexivity.
Qed.

(** When [stop_loss_percent / 100] is zero (a stop-loss of 0, or one so
    small that the quotient underflows), [calculate_position_size] returns
    0.0. Otherwise the size it returns is the risk-based size or the cap,
    and is never above the cap of 2% of the account value. *)
Theorem position_size_is_capped :
  forall account_value risk_per_trade stop_loss_percent : float,
    ((stop_loss_percent / 100 =? 0) = true ->
     calculate_position_size account_value risk_per_trade stop_loss_percent
     = 0)
    /\ ((stop_loss_percent / 100 =? 0) = false ->
        (account_value * (2 / 100)
         <? calculate_position_size account_value risk_per_trade
                                    stop_loss_percent) = false
        /\ (calculate_position_size account_value risk_per_trade
                                    stop_loss_percent
            = account_value * (risk_per_trade / 100)
              / (stop_loss_percent / 100)
            \/ calculate_position_size account_value risk_per_trade
                                       stop_loss_percent
               = account_value * (2 / 100))).
Proof.
  intros av rpt slp. unfold calculate_position_size. split.
  - intros Hzero. now rewrite Hzero.
  - intros Hnonzero. rewrite Hnonzero. unfold py_min, position_size_percent.
    destruct (av * (2 / 100) <? av * (rpt / 100) / (slp / 100)) eqn:Hlt.
    + split; [apply ltb_irrefl | now right].
    + split; [exact Hlt | now left].
Qed.

(** An account of 10000 risking 1% with a 5% stop is capped at 200; with a
    stop of 0, and with the smallest positive stop, the size is 0. *)
Lemma position_size_is_capped_witness :
  (5 / 100 =? 0) = false
  /\ calculate_position_size 10000 1 5 = 200
  /\ (0 / 100 =? 0) = true
  /\ calculate_position_size 10000 1 0 = 0
  /\ (0x1p-1074 / 100 =? 0) = true
  /\ calculate_position_size 10000 1 0x1p-1074 = 0.
Proof.
  split; [reflexivity|]. split; [reflexivity|]. split; [reflexivity|].
  split; [|split; [reflexivity|]].
  - apply (proj1 (position_size_is_capped 10000 1 0)). reflexivity.
  - apply (proj1 (position_size_is_capped 10000 1 0x1p-1074)). reflexivity.
Defined.

(** ** The pairs of positions *)

Lemma pair_indices_from_In n i j : forall m k,
  In (i, j) (flat_map (fun i => map (pair i) (seq (S i) (n - S i)))
                      (seq k m))
  <-> (k <= i < k + m /\ i < j < n)%nat.
Proof.
  intros m k. rewrite in_flat_map. split.
  - intros (i0 & Hi0 & Hin). apply in_seq in Hi0.
    apply in_map_iff in Hin. destruct Hin as (j0 & [= <- <-] & Hj0).
    apply in_seq in Hj0. lia.
  - intros (Hi & Hj). exists i. split; [apply in_seq; lia|].
    apply in_map_iff. exists j. split; [reflexivity|]. apply in_seq. lia.
Qed.

Lemma pair_indices_from_NoDup n : forall m k,
  NoDup (flat_map (fun i => map (pair i) (seq (S i) (n - S i))) (seq k m)).
Proof.
  induction m as [|m IH]; intros k; simpl; [constructor|].
  apply NoDup_app.
  - apply NoDup_map_NoDup_ForallPairs; [|apply seq_NoDup].
    intros x y _ _ [= ->]. reflexivity.
  - apply IH.
  - intros [i j] Hin Hin'. apply in_map_iff in Hin.
    destruct Hin as (j0 & [= <- <-] & _).
    apply pair_indices_from_In in Hin'. lia.
Qed.

Lemma pair_indices_from_length n : forall m k,
  (k + m = n)%nat ->
  (2 * length (flat_map (fun i => map (pair i) (seq (S i) (n - S i)))
                        (seq k m))
   = m * (m - 1))%nat.
Proof.
  induction m as [|m IH]; intros k Hkm; simpl; [reflexivity|].
  rewrite length_app, length_map, length_seq.
  specialize (IH (S k)). rewrite Nat.sub_0_r.
  assert (Hrest : (S k + m = n)%nat) by lia. apply IH in Hrest.
  destruct m as [|m]; simpl in *; [lia|].
  rewrite Nat.sub_0_r in Hrest. nia.
Qed.

Section CorrelationFacts.
Variable np_corrcoef : list float -> list float -> option float.

(** The correlation block of [get_risk_metrics] computes one correlation
    for every pair of positions [i < j], in the order of the pairs, no
    pair twice: [n * (n - 1) / 2] of them for [n] positions. Two series of
    different lengths contribute 0.0, and so does a pair on which numpy
    raises. The entry "max_correlation" is present exactly when there are
    at least two positions. *)
Theorem correlations_cover_each_pair_once :
  forall positions : list (list float),
    correlations np_corrcoef positions
    = map (fun ij => calculate_correlation np_corrcoef
                       (nth (fst ij) positions [])
                       (nth (snd ij) positions []))
          (pair_indices (length positions))
    /\ NoDup (pair_indices (length positions))
    /\ (forall i j, In (i, j) (pair_indices (length positions))
                    <-> (i < j < length positions)%nat)
    /\ (2 * length (correlations np_corrcoef positions)
        = length positions * (length positions - 1))%nat
    /\ (forall a b, length a <> length b ->
                    calculate_correlation np_corrcoef a b = 0)
    /\ (max_correlation np_corrcoef positions = None
        <-> (length positions < 2)%nat).
Proof.
  intros positions.
  assert (Hmap : correlations np_corrcoef positions
                 = map (fun ij => calculate_correlation np_corrcoef
                                    (nth (fst ij) positions [])
                                    (nth (snd ij) positions []))
                       (pair_indices (length positions))).
  { unfold correlations, pair_indices.
    generalize (seq 0 (length positions)) as idx.
    induction idx as [|i idx IH]; simpl; [reflexivity|].
    rewrite map_app, map_map, IH. reflexivity. }
  split; [exact Hmap|].
  split; [apply pair_indices_from_NoDup|].
  split; [|split; [|split]].
  - intros i j. unfold pair_indices. rewrite pair_indices_from_In. lia.
  - rewrite Hmap, length_map. unfold pair_indices.
    apply pair_indices_from_length. reflexivity.
  - intros a b Hne. unfold calculate_correlation.
    apply Nat.eqb_neq in Hne. now rewrite Hne.
  - unfold max_correlation.
    destruct (1 <? length positions)%nat eqn:Hn.
    + apply Nat.ltb_lt in Hn. split; [discriminate | lia].
    + apply Nat.ltb_ge in Hn. split; [lia | reflexivity].
Qed.

End CorrelationFacts.

End RiskSizingFacts.

(* ================================================================== *)
(** * The supervisor: creating and listing agents, agent errors *)

Module AgentRegistry.
Import PyDict Supervisor.
Local Open Scope string_scope.

(** The type names [create_agent] accepts. *)
Definition valid_agent_types : list string :=
  ["strategy"; "risk"; "deployment"; "backtesting"; "research"].

(** What [create_agent] returns: the dictionary with "status" "success"
    and the "agent_id", or with "status" "error" and the "message". *)
Inductive response : Type :=
| Success (agent_id : string)
| Failure (message : string).

Section WithAgents.
Variable Config : Type.
Variable construct : AgentClass -> Config -> result (Agent Config).
Variable initialize : Agent Config -> Agent Config * option exn.

Definition creation_failed (e : exn) : log_record :=
  Error ("Failed to create agent: " ++ str e).

(** The [except Exception] clause of [create_agent]: an [Exception] is
    logged and answered with the error response; any other exception
    goes on to the caller. *)
Definition creation_except (agents : dict (Agent Config)) (e : exn)
  : dict (Agent Config) * result response * list log_record :=
  if is_Exception e
  then (agents, Ok (Failure (str e)), [creation_failed e])
  else (agents, Raise e, []).

(** [MasterAgent.create_agent]: the registry afterwards, the response
    returned or the exception raised, and the records logged. *)
Definition create_agent (agents : dict (Agent Config))
    (agent_type : string) (config : Config)
  : dict (Agent Config) * result response * list log_record :=
  if negb (existsb (String.eqb agent_type) valid_agent_types) then
    creation_except agents (ValueError ("Invalid agent type: " ++ agent_type))
  else
    match _create_agent_instance construct agent_type config with
    | Raise e => creation_except agents e
    | Ok agent =>
        let (agent, raised) := initialize agent in
        match raised with
        | Some e => creation_except agents e
        | None =>
            (setitem agents (id agent) agent,
             Ok (Success (id agent)),
             [Info ("Created new " ++ agent_type ++ " agent with ID: "
                    ++ id agent)])
        end
    end.



(** [BaseAgent.handle_error]. *)
Definition handle_error (self : Agent Config) (error : exn) : Agent Config :=
  let count := S (error_count self) in
  {| agent_class := agent_class self; id := id self;
     status := if (max_errors self <=? count)%nat then "error"
               else status self;
     config := config self; last_update := last_update self;
     error_count := count; max_errors := max_errors self |}.

(** [BaseAgent.update_status]; [now] is what [datetime.now()] returns. *)
Definition update_status (now : Z) (self : Agent Config)
    (new_status : string) : Agent Config :=
  {| agent_class := agent_class self; id := id self;
     status := new_status;
     config := config self; last_update := now;
     error_count := error_count self; max_errors := max_errors self |}.

(** What happens to an agent: an error handled, or a status set. *)
Inductive agent_event : Type :=
| Failed (error : exn)
| StatusSet (now : Z) (new_status : string).

Definition apply_event (self : Agent Config) (ev : agent_event)
  : Agent Config :=
  match ev with
  | Failed error => handle_error self error
  | StatusSet now new_status => update_status now self new_status
  end.

End WithAgents.
End AgentRegistry.

Module AgentRegistryFacts.
Import PyDict PyDictFacts Supervisor SupervisorFacts AgentRegistry.
Import MonitorAlertsFacts.
Local Open Scope string_scope.
Local Open Scope list_scope.

(** The accepted type names are the keys of the table of classes. *)
Lemma valid_agent_types_are_the_table_keys :
  valid_agent_types = keys agent_classes.
Proof. reflexivity. Qed.

Lemma existsb_eqb_keys {V : Type} (d : dict V) k :
  existsb (String.eqb k) (keys d) = contains d k.
Proof.
  unfold contains, keys. induction d as [|[k0 v0] d IH]; simpl;
    [reflexivity|].
  destruct (String.eqb k k0); simpl; [reflexivity | exact IH].
Qed.

Section AnyAgents.
Variable Config : Type.
Variable construct : AgentClass -> Config -> result (Agent Config).
Variable initialize : Agent Config -> Agent Config * option exn.

(** What [create_agent] does, case by case. A type name outside the five
    accepted ones is answered with the error response of an invalid type.
    For an accepted type the class of that type is instantiated with the
    given configuration and the new agent's [initialize] is awaited: when
    both return, the agent is registered under its id (every other id is
    bound as before) and the success response carries that id; when one
    of them raises an [Exception], the registry is as it was and the
    error response carries the exception's message; when one of them
    raises an exception that is no [Exception], that exception leaves
    [create_agent], with the registry as it was and nothing logged.
    Nothing else happens: a success response means the agent was made and
    initialized, an error response or an exception means the registry is
    untouched. *)
Theorem create_agent_registers_or_leaves_registry :
  forall (agents : dict (Agent Config)) (agent_type : string)
         (config : Config),
    (get agent_classes agent_type = None ->
     create_agent construct initialize agents agent_type config
     = (agents,
        Ok (Failure ("Invalid agent type: " ++ agent_type)),
        [Error ("Failed to create agent: Invalid agent type: "
                ++ agent_type)]))
    /\ (forall cls a,
          get agent_classes agent_type = Some cls ->
          construct cls config = Ok a ->
          snd (initialize a) = None ->
          create_agent construct initialize agents agent_type config
          = (setitem agents (id (fst (initialize a))) (fst (initialize a)),
             Ok (Success (id (fst (initialize a)))),
             [Info ("Created new " ++ agent_type ++ " agent with ID: "
                    ++ id (fst (initialize a)))]))
    /\ (forall cls e,
          get agent_classes agent_type = Some cls ->
          construct cls config = Raise e ->
          create_agent construct initialize agents agent_type config
          = creation_except agents e)
    /\ (forall cls a e,
          get agent_classes agent_type = Some cls ->
          construct cls config = Ok a ->
          snd (initialize a) = Some e ->
          create_agent construct initialize agents agent_type config
          = creation_except agents e)
    /\ (forall e,
          creation_except agents e
          = if is_Exception e
            then (agents, Ok (Failure (str e)),
                  [Error ("Failed to create agent: " ++ str e)])
            else (agents, Raise e, []))
    /\ match snd (fst (create_agent construct initialize
                                    agents agent_type config)) with
       | Ok (Failure _) =>
           fst (fst (create_agent construct initialize
                                  agents agent_type config)) = agents
       | Raise e =>
           fst (fst (create_agent construct initialize
                                  agents agent_type config)) = agents
           /\ is_Exception e = false
           /\ snd (create_agent construct initialize
                                agents agent_type config) = []
       | Ok (Success agent_id) =>
           exists cls a,
             get agent_classes agent_type = Some cls
             /\ construct cls config = Ok a
             /\ snd (initialize a) = None
             /\ agent_id = id (fst (initialize a))
             /\ get (fst (fst (create_agent construct initialize
                                            agents agent_type config)))
                    agent_id
                = Some (fst (initialize a))
             /\ forall k, k <> agent_id ->
                  get (fst (fst (create_agent construct initialize
                                              agents agent_type config))) k
                  = get agents k
       end.
Proof.
  intros agents agent_type config. unfold create_agent.
  rewrite valid_agent_types_are_the_table_keys, existsb_eqb_keys.
  unfold contains, _create_agent_instance.
  destruct (get agent_classes agent_type) as [cls|] eqn:Hcls; simpl.
  - split; [discriminate|].
    split.
    { intros cls0 a [= <-] Hmake Hinit. rewrite Hmake.
      destruct (initialize a) as [a' raised]. simpl in *. now subst. }
    split; [intros cls0 e [= <-] Hmake; now rewrite Hmake|].
    split.
    { intros cls0 a e [= <-] Hmake Hinit. rewrite Hmake.
      destruct (initialize a) as [a' raised]. simpl in *. now subst. }
    split; [reflexivity|].
    destruct (construct cls config) as [a|e] eqn:Hmake; simpl.
    + destruct (initialize a) as [a' [e|]] eqn:Hinit; simpl.
      * unfold creation_except. destruct (is_Exception e) eqn:He; simpl;
          [reflexivity | repeat split; assumption].
      * exists cls, a. rewrite Hinit. simpl.
        split; [reflexivity|]. split; [exact Hmake|].
        split; [reflexivity|]. split; [reflexivity|].
        split; [apply get_setitem_same|].
        intros k Hk. now apply get_setitem_other.
    + unfold creation_except. destruct (is_Exception e) eqn:He; simpl;
        [reflexivity | repeat split; assumption].
  - split; [reflexivity|].
    split; [discriminate|]. split; [discriminate|].
    split; [discriminate|]. split; [reflexivity|]. reflexivity.
Qed.

(** ** A pass of the health-check loop *)






(** ** Errors of an agent *)

Lemma handle_errors_count (errors : list exn) : forall a : Agent Config,
  error_count (fold_left (@handle_error Config) errors a)
  = error_count a + length errors
  /\ max_errors (fold_left (@handle_error Config) errors a) = max_errors a.
Proof.
  induction errors as [|e errors IH]; intros a; simpl; [split; lia|].
  destruct (IH (handle_error a e)) as [Hcount Hmax].
  rewrite Hcount, Hmax. simpl. split; [lia | reflexivity].
Qed.

(** After a run of errors handled by [handle_error], [error_count] has
    grown by the number of errors. If it is still below [max_errors] the
    status is what it was; if it has reached [max_errors] the status is
    "error". [max_errors] never changes. *)
Theorem handle_error_flips_status_at_threshold :
  forall (a : Agent Config) (errors : list exn),
    error_count (fold_left (@handle_error Config) errors a)
    = error_count a + length errors
    /\ max_errors (fold_left (@handle_error Config) errors a) = max_errors a
    /\ (error_count a + length errors < max_errors a ->
        status (fold_left (@handle_error Config) errors a) = status a)
    /\ (errors <> [] -> max_errors a <= error_count a + length errors ->
        status (fold_left (@handle_error Config) errors a) = "error").
Proof.
  intros a errors.
  destruct (handle_errors_count errors a) as [Hcount Hmax].
  split; [exact Hcount|]. split; [exact Hmax|]. split.
  - clear Hcount Hmax. revert a.
    induction errors as [|e errors IH]; intros a Hbelow; simpl;
      [reflexivity|].
    rewrite IH by (simpl in *; lia). simpl.
    replace (max_errors a <=? S (error_count a))%nat with false;
      [reflexivity|].
    symmetry. apply Nat.leb_gt. simpl in Hbelow. lia.
  - clear Hcount Hmax. intros Hsome.
    induction errors as [|e errors IH] using rev_ind; [contradiction|].
    intros Hreached. rewrite fold_left_app. simpl.
    destruct (handle_errors_count errors a) as [Hcount Hmax].
    rewrite Hcount, Hmax. rewrite length_app in Hreached. simpl in Hreached.
    replace (max_errors a <=? S (error_count a + length errors))%nat with true;
      [reflexivity|].
    symmetry. apply Nat.leb_le. lia.
Qed.

(** [update_status] sets the status and leaves the error count alone:
    through any sequence of handled errors and status updates the count
    is the old count plus the number of errors, and an error handled once
    the count has reached [max_errors] - 1 puts the status back to
    "error", whatever status was set in between. *)
Theorem update_status_does_not_reset_errors :
  forall (a : Agent Config) (events : list (agent_event))
         (error : exn),
    error_count (fold_left (@apply_event Config) events a)
    = error_count a
      + length (filter (fun ev => match ev with
                                  | Failed _ => true
                                  | StatusSet _ _ => false
                                  end) events)
    /\ max_errors (fold_left (@apply_event Config) events a) = max_errors a
    /\ (max_errors a <= S (error_count a) ->
        status (handle_error (fold_left (@apply_event Config) events a)
                             error)
        = "error").
Proof.
  intros a events error.
  assert (Hrun : forall a0 : Agent Config,
             error_count (fold_left (@apply_event Config) events a0)
             = error_count a0
               + length (filter (fun ev => match ev with
                                           | Failed _ => true
                                           | StatusSet _ _ => false
                                           end) events)
             /\ max_errors (fold_left (@apply_event Config) events a0)
                = max_errors a0).
  { induction events as [|ev events IH]; intros a0; simpl; [split; lia|].
    destruct (IH (apply_event a0 ev)) as [Hcount Hmax].
    rewrite Hcount, Hmax. destruct ev; simpl; split; lia || reflexivity. }
  destruct (Hrun a) as [Hcount Hmax].
  split; [exact Hcount|]. split; [exact Hmax|].
  intros Hreached. simpl. rewrite Hcount, Hmax.
  replace (max_errors a <=? _)%nat with true; [reflexivity|].
  symmetry. apply Nat.leb_le. lia.
Qed.

End AnyAgents.

(** A strategy agent asked for with a configuration: the class is
    instantiated, the agent comes up and is registered under its id,
    after the agents that were there. *)
Lemma create_agent_registers_or_leaves_registry_witness :
  get agent_classes "strategy" = Some StrategyAgent
  /\ create_agent new_agent come_up registry "strategy"
                  [("timeframe_years", "5")]
     = (registry
        ++ [("StrategyAgent_20240102_000000",
             {| agent_class := StrategyAgent;
                id := "StrategyAgent_20240102_000000";
                status := "active";
                config := [("timeframe_years", "5")];
                last_update := 2; error_count := 0; max_errors := 3 |})],
        Ok (Success "StrategyAgent_20240102_000000"),
        [Info "Created new strategy agent with ID: StrategyAgent_20240102_000000"]).
Proof.
  split; [reflexivity|].
  destruct (@create_agent_registers_or_leaves_registry
              SupervisorFacts.Config new_agent come_up
              registry "strategy" [("timeframe_years", "5")])
    as (_ & Hsuccess & _).
  rewrite (Hsuccess StrategyAgent _ eq_refl eq_refl eq_refl).
  reflexivity.
Defined.

End AgentRegistryFacts.

(* ================================================================== *)
(** * The secrets file: [src/cli/manage_secrets.py] *)

Module Secrets.
Import PyDict.
Local Open Scope string_scope.

(** Text is a string of code points below 256. *)
Definition LF : ascii := "010"%char.
Definition CR : ascii := "013"%char.
Definition EQUALS : ascii := "="%char.

(** [c.isspace()], for the code points below 256: tab to carriage
    return, the four separators 28 to 31, space, next line (133) and
    no-break space (160). *)
Definition is_space (c : ascii) : bool :=
  let n := nat_of_ascii c in
  ((9 <=? n) && (n <=? 13) || (28 <=? n) && (n <=? 32)
   || (n =? 133) || (n =? 160))%nat.

(** [c in s]. *)
Fixpoint contains_char (c : ascii) (s : string) : bool :=
  match s with
  | EmptyString => false
  | String c' rest => Ascii.eqb c' c || contains_char c rest
  end.

(** [s.lstrip()], [s.rstrip()], [s.strip()]. *)
Fixpoint lstrip (s : string) : string :=
  match s with
  | EmptyString => EmptyString
  | String c rest => if is_space c then lstrip rest else s
  end.

Fixpoint rstrip (s : string) : string :=
  match s with
  | EmptyString => EmptyString
  | String c rest =>
      match rstrip rest with
      | EmptyString => if is_space c then EmptyString else String c EmptyString
      | rest' => String c rest'
      end
  end.

Definition strip (s : string) : string := rstrip (lstrip s).

(** [s.split(c, 1)] for a string that contains [c]: what is before the
    first [c], and what is after it. *)
Fixpoint split_first (c : ascii) (s : string) : string * string :=
  match s with
  | EmptyString => (EmptyString, EmptyString)
  | String c' rest =>
      if Ascii.eqb c' c then (EmptyString, rest)
      else let (before, after) := split_first c rest in
           (String c' before, after)
  end.

(** What a file opened for reading in text mode does to line ends: a
    carriage return becomes a line feed, and a line feed that follows a
    carriage return is dropped. *)
Fixpoint translate_newlines (after_cr : bool) (s : string) : string :=
  match s with
  | EmptyString => EmptyString
  | String c rest =>
      if Ascii.eqb c CR then String LF (translate_newlines true rest)
      else if Ascii.eqb c LF && after_cr then translate_newlines false rest
      else String c (translate_newlines false rest)
  end.

(** The lines a loop over the file yields: each with its line feed, the
    last one without when the text does not end in one. *)
Fixpoint readlines (s : string) : list string :=
  match s with
  | EmptyString => []
  | String c rest =>
      if Ascii.eqb c LF then String c EmptyString :: readlines rest
      else
        match readlines rest with
        | [] => [String c EmptyString]
        | line :: lines => String c line :: lines
        end
  end.

(** The body of the loop of [get_secrets]. *)
Definition parse_line (secrets : dict string) (line : string)
  : dict string :=
  if contains_char EQUALS line then
    let (key, value) := split_first EQUALS (strip line) in
    setitem secrets key value
  else secrets.

(** [SecretsManager.get_secrets]; [file] is the text of [.env], [None]
    when the file does not exist. *)
Definition get_secrets (file : option string) : dict string :=
  match file with
  | None => []
  | Some text =>
      fold_left parse_line (readlines (translate_newlines false text)) []
  end.

(** The line [f'{k}={v}\n']. *)
Definition format_line (kv : string * string) : string :=
  fst kv ++ String EQUALS (snd kv ++ String LF EmptyString).

(** [SecretsManager.store_secret]: the text of [.env] afterwards (a line
    feed is written as it is, as on POSIX systems). *)
Definition store_secret (file : option string) (key value : string)
  : string :=
  fold_right (fun kv text => format_line kv ++ text) EmptyString
             (setitem (get_secrets file) key value).

End Secrets.

Module SecretsFacts.
Import PyDict PyDictFacts Secrets.
Local Open Scope string_scope.

(** ** Characters and stripping *)

Lemma contains_char_app c s t :
  contains_char c (s ++ t) = contains_char c s || contains_char c t.
Proof.
  induction s as [|c' s IH]; simpl; [reflexivity|].
  now rewrite IH, orb_assoc.
Qed.

Lemma append_assoc (s t u : string) : (s ++ t) ++ u = s ++ (t ++ u).
Proof. induction s as [|c s IH]; simpl; [reflexivity | now rewrite IH]. Qed.

Lemma append_empty_r (s : string) : s ++ "" = s.
Proof. induction s as [|c s IH]; simpl; [reflexivity | now rewrite IH]. Qed.

Lemma contains_char_lstrip c s :
  contains_char c s = false -> contains_char c (lstrip s) = false.
Proof.
  induction s as [|c' s IH]; simpl; [reflexivity|].
  intros H. apply orb_false_iff in H. destruct H as [Hc Hs].
  destruct (is_space c'); [now apply IH|]. simpl. now rewrite Hc, Hs.
Qed.

Lemma contains_char_rstrip c s :
  contains_char c s = false -> contains_char c (rstrip s) = false.
Proof.
  induction s as [|c' s IH]; simpl; [reflexivity|].
  intros H. apply orb_false_iff in H. destruct H as [Hc Hs].
  specialize (IH Hs). destruct (rstrip s) as [|c'' r].
  - destruct (is_space c'); simpl; [reflexivity | now rewrite Hc].
  - simpl in *. now rewrite Hc, IH.
Qed.

Lemma lstrip_length s : String.length (lstrip s) <= String.length s.
Proof.
  induction s as [|c s IH]; simpl; [lia|].
  destruct (is_space c); simpl; lia.
Qed.

(** A string that [lstrip] leaves alone is empty or starts with a
    character that is not white space. *)
Lemma lstrip_fixed s :
  lstrip s = s <->
  match s with EmptyString => True | String c _ => is_space c = false end.
Proof.
  destruct s as [|c s]; simpl; [tauto|].
  destruct (is_space c); split; try reflexivity; try discriminate.
  intros H. pose proof (lstrip_length s) as Hlen. rewrite H in Hlen.
  simpl in Hlen. lia.
Qed.

Lemma lstrip_idempotent s : lstrip (lstrip s) = lstrip s.
Proof.
  induction s as [|c s IH]; simpl; [reflexivity|].
  destruct (is_space c) eqn:Hc; [exact IH|]. simpl. now rewrite Hc.
Qed.

Lemma rstrip_idempotent s : rstrip (rstrip s) = rstrip s.
Proof.
  induction s as [|c s IH]; simpl; [reflexivity|].
  destruct (rstrip s) as [|c' r] eqn:Hr.
  - destruct (is_space c) eqn:Hc; simpl; [reflexivity | now rewrite Hc].
  - change (rstrip (String c (String c' r)))
      with (match rstrip (String c' r) with
            | EmptyString =>
                if is_space c then EmptyString else String c EmptyString
            | rest' => String c rest'
            end).
    now rewrite IH.
Qed.

Lemma rstrip_keeps_head c s :
  is_space c = false ->
  exists r, rstrip (String c s) = String c r.
Proof.
  intros Hc. simpl. destruct (rstrip s); [|now eexists].
  rewrite Hc. now eexists.
Qed.

Lemma strip_is_stripped s :
  lstrip (strip s) = strip s /\ rstrip (strip s) = strip s.
Proof.
  unfold strip. split; [|apply rstrip_idempotent].
  pose proof (lstrip_idempotent s) as Hl.
  destruct (lstrip s) as [|c r] eqn:Hs; [reflexivity|].
  apply lstrip_fixed in Hl.
  destruct (@rstrip_keeps_head c r Hl) as [r' ->]. simpl. now rewrite Hl.
Qed.

(** Trailing white space does not survive [rstrip]. *)
Lemma rstrip_app_space s c :
  is_space c = true -> rstrip (s ++ String c "") = rstrip s.
Proof.
  intros Hc. induction s as [|c' s IH]; simpl; [now rewrite Hc|].
  now rewrite IH.
Qed.

Lemma rstrip_fixed_tail c s : rstrip (String c s) = String c s -> rstrip s = s.
Proof.
  simpl. destruct (rstrip s) as [|c' r] eqn:Hr.
  - destruct (is_space c); [discriminate|]. now intros [= <-].
  - now intros [= <-].
Qed.

Lemma rstrip_app_fixed s t :
  rstrip t = t -> t <> "" -> rstrip (s ++ t) = s ++ t.
Proof.
  intros Ht Hne. induction s as [|c s IH]; simpl; [exact Ht|].
  rewrite IH. destruct (s ++ t) eqn:Hst; [|reflexivity].
  destruct s; simpl in Hst; [contradiction | discriminate].
Qed.

Lemma lstrip_app s t :
  lstrip (s ++ t)
  = match lstrip s with
    | EmptyString => lstrip t
    | s' => s' ++ t
    end.
Proof.
  induction s as [|c s IH]; simpl; [reflexivity|].
  destruct (is_space c); [exact IH | reflexivity].
Qed.

(** The line feed that ends a line does not matter to [strip]. *)
Lemma strip_line_feed body : strip (body ++ String LF "") = strip body.
Proof.
  unfold strip. rewrite lstrip_app.
  destruct (lstrip body) as [|c r] eqn:Hb; [reflexivity|].
  now apply rstrip_app_space.
Qed.

Lemma rstrip_fixed_suffix s t : rstrip (s ++ t) = s ++ t -> rstrip t = t.
Proof.
  induction s as [|c s IH]; simpl; [tauto|].
  intros H. apply IH. apply (@rstrip_fixed_tail c). exact H.
Qed.

(** ** Splitting at the first equals sign *)

Lemma split_first_app c k v :
  contains_char c k = false -> split_first c (k ++ String c v) = (k, v).
Proof.
  induction k as [|c' k IH]; simpl.
  - now rewrite Ascii.eqb_refl.
  - intros H. apply orb_false_iff in H. destruct H as [Hc Hk].
    now rewrite Hc, IH.
Qed.

Lemma split_first_parts c s :
  contains_char c s = true ->
  s = fst (split_first c s) ++ String c (snd (split_first c s))
  /\ contains_char c (fst (split_first c s)) = false.
Proof.
  induction s as [|c' s IH]; simpl; [discriminate|].
  destruct (Ascii.eqb_spec c' c) as [->|Hne]; simpl.
  - now split.
  - intros Hin. destruct (IH Hin) as [Hs Hk].
    destruct (split_first c s) as [k v]. simpl in *.
    split; [now rewrite <- Hs|].
    destruct (Ascii.eqb_spec c' c); [contradiction | exact Hk].
Qed.

(** ** Line ends *)

Lemma translate_newlines_none s :
  contains_char CR s = false -> translate_newlines false s = s.
Proof.
  induction s as [|c s IH]; simpl; [reflexivity|].
  intros H. apply orb_false_iff in H. destruct H as [Hc Hs].
  rewrite Hc, andb_false_r. now rewrite IH.
Qed.

Lemma translate_newlines_no_cr s : forall after_cr,
  contains_char CR (translate_newlines after_cr s) = false.
Proof.
  induction s as [|c s IH]; intros after_cr; simpl; [reflexivity|].
  destruct (Ascii.eqb c CR) eqn:Hc; [simpl; apply IH|].
  destruct (Ascii.eqb c LF && after_cr); [apply IH|].
  simpl. now rewrite Hc, IH.
Qed.

(** A line as the loop over the file yields it: no line feed except, at
    most, as its last character. *)
Definition line_ok (line : string) : Prop :=
  exists body,
    contains_char LF body = false
    /\ (line = body \/ line = body ++ String LF "").

Lemma readlines_ok s : Forall line_ok (readlines s).
Proof.
  induction s as [|c s IH]; simpl; [constructor|].
  destruct (Ascii.eqb c LF) eqn:Hc.
  - constructor; [|exact IH]. exists "". split; [reflexivity|].
    right. apply Ascii.eqb_eq in Hc. now subst.
  - destruct (readlines s) as [|line lines].
    + constructor; [|constructor]. exists (String c ""). simpl.
      rewrite Hc. split; [reflexivity | now left].
    + inversion IH as [|? ? (body & Hbody & Hline) Hlines]; subst.
      constructor; [|exact Hlines]. exists (String c body). simpl.
      rewrite Hc, Hbody. split; [reflexivity|].
      destruct Hline as [->| ->]; [now left | now right].
Qed.

Lemma readlines_no_cr s :
  contains_char CR s = false ->
  Forall (fun line => contains_char CR line = false) (readlines s).
Proof.
  induction s as [|c s IH]; simpl; [constructor|].
  intros H. apply orb_false_iff in H. destruct H as [Hc Hs].
  specialize (IH Hs). destruct (Ascii.eqb c LF).
  - constructor; [simpl; now rewrite Hc | exact IH].
  - destruct (readlines s) as [|line lines].
    + constructor; [simpl; now rewrite Hc | constructor].
    + inversion IH as [|? ? Hline Hlines]; subst.
      constructor; [simpl; now rewrite Hc, Hline | exact Hlines].
Qed.

Lemma readlines_line body rest :
  contains_char LF body = false ->
  readlines (body ++ String LF rest)
  = (body ++ String LF "") :: readlines rest.
Proof.
  induction body as [|c body IH]; simpl.
  - intros _. reflexivity.
  - intros H. apply orb_false_iff in H. destruct H as [Hc Hbody].
    now rewrite Hc, IH.
Qed.

(** ** Keys and values that survive the file *)

(** A key is read back as written when it has no equals sign, no line
    end and no leading white space; a value, when it has no line end and
    no trailing white space. *)
Definition clean_key (key : string) : Prop :=
  contains_char EQUALS key = false
  /\ contains_char LF key = false
  /\ contains_char CR key = false
  /\ lstrip key = key.

Definition clean_value (value : string) : Prop :=
  contains_char LF value = false
  /\ contains_char CR value = false
  /\ rstrip value = value.

Definition clean_entry (kv : string * string) : Prop :=
  clean_key (fst kv) /\ clean_value (snd kv).

(** The text [store_secret] writes for a dictionary. *)
Definition env_text (secrets : dict string) : string :=
  fold_right (fun kv text => format_line kv ++ text) "" secrets.

Lemma format_line_body k v :
  format_line (k, v) = (k ++ String EQUALS v) ++ String LF "".
Proof. unfold format_line. simpl. now rewrite append_assoc. Qed.

Lemma strip_entry k v :
  clean_key k -> clean_value v ->
  strip (k ++ String EQUALS v) = k ++ String EQUALS v.
Proof.
  intros (_ & _ & _ & Hk) (_ & _ & Hv). unfold strip.
  assert (Hl : lstrip (k ++ String EQUALS v) = k ++ String EQUALS v).
  { apply lstrip_fixed. apply lstrip_fixed in Hk.
    destruct k as [|c k]; [reflexivity | exact Hk]. }
  rewrite Hl. apply rstrip_app_fixed; [|discriminate].
  destruct v as [|c v]; [reflexivity|].
  apply (rstrip_app_fixed (String EQUALS "") Hv). discriminate.
Qed.

Lemma parse_formatted_line secrets k v :
  clean_key k -> clean_value v ->
  parse_line secrets (format_line (k, v)) = setitem secrets k v.
Proof.
  intros Hk Hv. unfold parse_line.
  rewrite format_line_body, strip_line_feed, (strip_entry Hk Hv).
  rewrite !contains_char_app. simpl. rewrite orb_true_r. simpl.
  destruct Hk as (Heq & _). now rewrite (@split_first_app EQUALS k v Heq).
Qed.

Lemma env_text_no_cr secrets :
  Forall clean_entry secrets -> contains_char CR (env_text secrets) = false.
Proof.
  induction 1 as [|[k v] secrets [(_ & _ & Hk & _) (_ & Hv & _)] _ IH];
    simpl; [reflexivity|].
  unfold format_line. simpl in *.
  rewrite !contains_char_app. simpl. rewrite contains_char_app. simpl.
  now rewrite Hk, Hv, IH.
Qed.

Lemma readlines_env_text secrets :
  Forall clean_entry secrets ->
  readlines (env_text secrets) = map format_line secrets.
Proof.
  induction 1 as [|[k v] secrets [(_ & Hk & _) (Hv & _)] _ IH];
    simpl; [reflexivity|].
  rewrite format_line_body, append_assoc. simpl.
  rewrite readlines_line, IH; [reflexivity|].
  simpl in *. rewrite contains_char_app. simpl. now rewrite Hk, Hv.
Qed.

Lemma parse_formatted_lines secrets : forall acc,
  Forall clean_entry secrets ->
  fold_left parse_line (map format_line secrets) acc
  = fold_left (fun a kv => setitem a (fst kv) (snd kv)) secrets acc.
Proof.
  induction secrets as [|[k v] secrets IH]; intros acc Hclean; simpl;
    [reflexivity|].
  inversion Hclean as [|? ? [Hk Hv] Hrest]; subst.
  simpl in Hk, Hv.
  rewrite (@parse_formatted_line acc k v Hk Hv). now apply IH.
Qed.

Lemma setitem_new_app {V : Type} (d : dict V) k v :
  ~ In k (keys d) -> setitem d k v = (d ++ [(k, v)])%list.
Proof.
  induction d as [|[k0 v0] d IH]; simpl; intros Hnotin; [reflexivity|].
  destruct (String.eqb_spec k k0) as [->|Hne].
  - exfalso. apply Hnotin. now left.
  - rewrite IH; [reflexivity|]. intros Hin. apply Hnotin. now right.
Qed.

Lemma rebuild_dict {V : Type} (d : dict V) : forall acc,
  wf (acc ++ d)%list ->
  fold_left (fun a kv => setitem a (fst kv) (snd kv)) d acc
  = (acc ++ d)%list.
Proof.
  induction d as [|[k v] d IH]; intros acc Hwf; simpl.
  - now rewrite app_nil_r.
  - rewrite setitem_new_app by (eapply wf_app_notin; eassumption).
    rewrite IH; [now rewrite <- app_assoc|].
    now rewrite <- app_assoc.
Qed.

(** Reading back what was written for a dictionary of clean entries
    gives that dictionary. *)
Lemma get_secrets_env_text secrets :
  wf secrets -> Forall clean_entry secrets ->
  get_secrets (Some (env_text secrets)) = secrets.
Proof.
  intros Hwf Hclean. unfold get_secrets.
  rewrite translate_newlines_none by now apply env_text_no_cr.
  rewrite readlines_env_text, parse_formatted_lines by exact Hclean.
  now apply (rebuild_dict secrets []).
Qed.

(** ** What [get_secrets] returns *)

Lemma contains_char_lstrip_kept c s :
  is_space c = false -> contains_char c s = true ->
  contains_char c (lstrip s) = true.
Proof.
  intros Hc. induction s as [|c' s IH]; simpl; [discriminate|].
  destruct (is_space c') eqn:Hc'; [|now simpl].
  destruct (Ascii.eqb_spec c' c) as [->|_]; [congruence | exact IH].
Qed.

Lemma contains_char_rstrip_kept c s :
  is_space c = false -> contains_char c s = true ->
  contains_char c (rstrip s) = true.
Proof.
  intros Hc. induction s as [|c' s IH]; simpl; [discriminate|].
  destruct (contains_char c s) eqn:Hs.
  - intros _. specialize (IH eq_refl).
    destruct (rstrip s) as [|c'' r]; [discriminate|].
    simpl in *. rewrite IH. apply orb_true_r.
  - rewrite orb_false_r. intros Heq. apply Ascii.eqb_eq in Heq. subst c'.
    destruct (rstrip s); [rewrite Hc|]; simpl; now rewrite Ascii.eqb_refl.
Qed.

Lemma parse_line_clean acc line :
  line_ok line -> contains_char CR line = false ->
  Forall clean_entry acc -> Forall clean_entry (parse_line acc line).
Proof.
  intros (body & Hlf & Hline) Hcr Hacc. unfold parse_line.
  destruct (contains_char EQUALS line) eqn:Heq; [|exact Hacc].
  assert (Hstrip : strip line = strip body)
    by (destruct Hline as [->| ->]; [reflexivity | apply strip_line_feed]).
  assert (Hcr' : contains_char CR body = false).
  { destruct Hline as [->| ->]; [exact Hcr|].
    rewrite contains_char_app in Hcr. now apply orb_false_iff in Hcr. }
  assert (Heq' : contains_char EQUALS body = true).
  { destruct Hline as [->| ->]; [exact Heq|].
    rewrite contains_char_app in Heq. simpl in Heq.
    now rewrite orb_false_r in Heq. }
  rewrite Hstrip.
  assert (Hs_lf : contains_char LF (strip body) = false)
    by (apply contains_char_rstrip, contains_char_lstrip, Hlf).
  assert (Hs_cr : contains_char CR (strip body) = false)
    by (apply contains_char_rstrip, contains_char_lstrip, Hcr').
  assert (Hs_eq : contains_char EQUALS (strip body) = true)
    by (apply contains_char_rstrip_kept, contains_char_lstrip_kept;
        [reflexivity | reflexivity | exact Heq']).
  destruct (strip_is_stripped body) as [Hs_l Hs_r].
  destruct (split_first_parts _ _ Hs_eq) as [Hs Hk_eq].
  destruct (split_first EQUALS (strip body)) as [k v]. simpl in Hs, Hk_eq.
  rewrite Hs in Hs_lf, Hs_cr, Hs_l, Hs_r.
  rewrite contains_char_app in Hs_lf, Hs_cr. simpl in Hs_lf, Hs_cr.
  apply orb_false_iff in Hs_lf, Hs_cr.
  destruct Hs_lf as [Hk_lf Hv_lf]. destruct Hs_cr as [Hk_cr Hv_cr].
  apply LedgerRunsFacts.Forall_setitem; [exact Hacc|].
  split; simpl.
  - repeat split; try assumption.
    apply lstrip_fixed. apply lstrip_fixed in Hs_l.
    destruct k as [|c k]; [exact I | exact Hs_l].
  - repeat split; try assumption.
    apply rstrip_fixed_suffix in Hs_r.
    now apply (@rstrip_fixed_tail EQUALS).
Qed.

Lemma get_secrets_clean file :
  wf (get_secrets file) /\ Forall clean_entry (get_secrets file).
Proof.
  destruct file as [text|]; simpl; [|split; [apply wf_nil | constructor]].
  pose proof (readlines_ok (translate_newlines false text)) as Hok.
  pose proof (readlines_no_cr _ (translate_newlines_no_cr text false))
    as Hcr.
  assert (Hgen : forall acc : dict string,
             wf acc /\ Forall clean_entry acc ->
             wf (fold_left parse_line
                           (readlines (translate_newlines false text)) acc)
             /\ Forall clean_entry
                  (fold_left parse_line
                             (readlines (translate_newlines false text))
                             acc)).
  { induction (readlines (translate_newlines false text))
      as [|line lines IH]; intros acc Hacc; simpl; [exact Hacc|].
    inversion Hok as [|? ? Hline Hlines]; subst.
    inversion Hcr as [|? ? Hline_cr Hlines_cr]; subst.
    apply IH; try assumption. destruct Hacc as [Hwf Hclean]. split.
    - unfold parse_line. destruct (contains_char EQUALS line); [|exact Hwf].
      destruct (split_first EQUALS (strip line)). now apply wf_setitem.
    - now apply parse_line_clean. }
  apply Hgen. split; [apply wf_nil | constructor].
Qed.

(** ** Storing and reading back *)

(** A secret stored under a clean key with a clean value is read back:
    after [store_secret], [get_secrets] gives what it gave before with
    the key bound to the value (in its old place, or last when the key is
    new), every other key bound as before. *)
Theorem store_secret_then_get_secrets :
  forall (file : option string) (key value : string),
    clean_key key -> clean_value value ->
    get_secrets (Some (store_secret file key value))
    = setitem (get_secrets file) key value
    /\ get (get_secrets (Some (store_secret file key value))) key
       = Some value
    /\ (forall k, k <> key ->
          get (get_secrets (Some (store_secret file key value))) k
          = get (get_secrets file) k).
Proof.
  intros file key value Hkey Hvalue.
  destruct (get_secrets_clean file) as [Hwf Hclean].
  assert (Hback : get_secrets (Some (store_secret file key value))
                  = setitem (get_secrets file) key value).
  { change (store_secret file key value)
      with (env_text (setitem (get_secrets file) key value)).
    apply get_secrets_env_text; [now apply wf_setitem|].
    apply LedgerRunsFacts.Forall_setitem; [exact Hclean | now split]. }
  rewrite Hback. split; [reflexivity|].
  split; [apply get_setitem_same|].
  intros k Hk. now apply get_setitem_other.
Qed.

(** A paper-trading flag stored in a file that has a key already. *)
Lemma store_secret_then_get_secrets_witness :
  clean_key "ALPACA_PAPER_TRADING" /\ clean_value "true"
  /\ get_secrets (Some (store_secret (Some "ALPACA_API_KEY = abc")
                                    "ALPACA_PAPER_TRADING" "true"))
     = [("ALPACA_API_KEY ", " abc"); ("ALPACA_PAPER_TRADING", "true")].
Proof.
  assert (Hkey : clean_key "ALPACA_PAPER_TRADING") by (repeat split).
  assert (Hvalue : clean_value "true") by (repeat split).
  split; [exact Hkey|]. split; [exact Hvalue|].
  rewrite (proj1 (@store_secret_then_get_secrets
                    (Some "ALPACA_API_KEY = abc")
                    "ALPACA_PAPER_TRADING" "true" Hkey Hvalue)).
  reflexivity.
Defined.

(** Whatever the file holds, [get_secrets] returns no key twice, keys
    without equals sign, line end or leading white space, and values
    without line end or trailing white space; and storing again a secret
    that is there, with the value it has, leaves what [get_secrets]
    returns as it was. *)
Theorem store_secret_again_changes_nothing :
  forall (file : option string) (key value : string),
    get (get_secrets file) key = Some value ->
    wf (get_secrets file)
    /\ Forall clean_entry (get_secrets file)
    /\ get_secrets (Some (store_secret file key value)) = get_secrets file.
Proof.
  intros file key value Hget.
  destruct (get_secrets_clean file) as [Hwf Hclean].
  split; [exact Hwf|]. split; [exact Hclean|].
  assert (Hsame : setitem (get_secrets file) key value = get_secrets file).
  { revert Hget. generalize (get_secrets file) as d.
    induction d as [|[k0 v0] d IH]; simpl; [discriminate|].
    destruct (String.eqb_spec key k0) as [->|Hne].
    - now intros [= ->].
    - intros Hget. now rewrite IH. }
  change (store_secret file key value)
    with (env_text (setitem (get_secrets file) key value)).
  rewrite Hsame. now apply get_secrets_env_text.
Qed.

Lemma store_secret_again_changes_nothing_witness :
  get (get_secrets (Some "ALPACA_API_KEY = abc")) "ALPACA_API_KEY "
  = Some " abc"
  /\ get_secrets (Some (store_secret (Some "ALPACA_API_KEY = abc")
                                    "ALPACA_API_KEY " " abc"))
     = get_secrets (Some "ALPACA_API_KEY = abc").
Proof.
  split; [reflexivity|].
  apply (@store_secret_again_changes_nothing
           (Some "ALPACA_API_KEY = abc") "ALPACA_API_KEY " " abc").
  reflexivity.
Defined.

(** What does not survive: a key with an equals sign is cut at it, and
    trailing white space of a value is lost. *)
Example unclean_secrets_are_not_read_back :
  get_secrets (Some (store_secret None "A=B" "x")) = [("A", "B=x")]
  /\ get_secrets (Some (store_secret None "KEY" "value ")) = [("KEY", "value")].
Proof. split; reflexivity. Qed.

End SecretsFacts.
